(** * sftp-ssh-mcp: a shallow embedding of [src/index.ts]

    The server exposes four tools (sftp_upload, sftp_download, sftp_list,
    exec).  Each tool handler builds an [sshConfig], opens one ssh2
    connection and drives it through event callbacks.  The embedding keeps
    that shape:

    - JavaScript strings are sequences of UTF-16 code units;
    - the callbacks registered on the connection are a transition function
      on the events the ssh2 library emits, and the promise returned by
      [execSftpCommand] / [execSshCommand] is a value settled at most once;
    - the [async] tool handlers run in a small monad over the local file
      system and the log of external calls, with results
      return / throw / never-settles. *)

From Stdlib Require Import ZArith NArith Ascii String.
From Stdlib.Strings Require Import Byte.
From stdpp Require Import gmap list strings pretty.

Local Open Scope N_scope.

(** ** JavaScript strings *)

Module JS.

(** A string value: its UTF-16 code units. *)
Definition jsstring := list N.

(** A string literal of the source (the literals of [index.ts] that the
    model uses are ASCII). *)
Definition js (s : string) : jsstring :=
  (λ a, N_of_ascii a) <$> list_ascii_of_string s.

(** ToBoolean on a string: only the empty string is falsy. *)
Definition truthy (s : jsstring) : bool :=
  match s with [] => false | _ :: _ => true end.

(** ToBoolean on [string | undefined]. *)
Definition truthy_opt (o : option jsstring) : bool :=
  match o with Some s => truthy s | None => false end.

(** ECMAScript LineTerminator code points. *)
Definition is_line_terminator (c : N) : bool :=
  (c =? 0x000A) || (c =? 0x000D) || (c =? 0x2028) || (c =? 0x2029).

(** ECMAScript WhiteSpace code points (TAB, VT, FF, ZWNBSP and the
    space separators). *)
Definition is_white_space (c : N) : bool :=
  (c =? 0x0009) || (c =? 0x000B) || (c =? 0x000C) || (c =? 0xFEFF) ||
  (c =? 0x0020) || (c =? 0x00A0) || (c =? 0x1680) ||
  ((0x2000 <=? c) && (c <=? 0x200A)) ||
  (c =? 0x202F) || (c =? 0x205F) || (c =? 0x3000).

(** What [String.prototype.trim] strips (also StrWhiteSpaceChar). *)
Definition is_trimmed_char (c : N) : bool :=
  is_white_space c || is_line_terminator c.

Fixpoint trimStart (s : jsstring) : jsstring :=
  match s with
  | [] => []
  | c :: r => if is_trimmed_char c then trimStart r else s
  end.

Definition trimEnd (s : jsstring) : jsstring :=
  reverse (trimStart (reverse s)).

(** [String.prototype.trim]. *)
Definition trim (s : jsstring) : jsstring := trimEnd (trimStart s).

(** [Array.prototype.join(sep)] on an array of strings. *)
Fixpoint join (sep : jsstring) (l : list jsstring) : jsstring :=
  match l with
  | [] => []
  | [x] => x
  | x :: r => x ++ sep ++ join sep r
  end.

(** Number-to-string on an integer-valued number (decimal digits, with a
    leading minus sign for negative values). *)
Definition Number_toString (n : Z) : jsstring := js (pretty n).

(** *** Numeric conversions of strings *)

Definition is_decimal_digit (c : N) : bool := (48 <=? c) && (c <=? 57).

(** Value of a code unit as a digit (0-9, a-z, A-Z). *)
Definition digit_value (c : N) : option Z :=
  if (48 <=? c) && (c <=? 57) then Some (Z.of_N (c - 48))
  else if (97 <=? c) && (c <=? 122) then Some (Z.of_N (c - 87))
  else if (65 <=? c) && (c <=? 90) then Some (Z.of_N (c - 55))
  else None.

Definition radix_digit (R : Z) (c : N) : option Z :=
  match digit_value c with
  | Some d => if (d <? R)%Z then Some d else None
  | None => None
  end.

(** Value of the longest prefix of radix-[R] digits. *)
Fixpoint parse_digits (R : Z) (acc : Z) (s : jsstring) : Z :=
  match s with
  | [] => acc
  | c :: r =>
      match radix_digit R c with
      | Some d => parse_digits R (acc * R + d)%Z r
      | None => acc
      end
  end.

Definition parse_radix (R : Z) (s : jsstring) : option Z :=
  match s with
  | [] => None
  | c :: _ =>
      match radix_digit R c with
      | Some _ => Some (parse_digits R 0 s)
      | None => None
      end
  end.

(** The number values [parseInt] can return (and the literal [22]):
    integer-valued doubles, negative zero, the infinities and NaN. *)
Inductive JSNumber :=
| finite (n : Z)                  (* an integer a double holds; 0 is +0 *)
| negative_zero
| infinity (negative : bool)
| NaN.

(** A non-negative integer rounded to the nearest integer that a double
    holds (53 significant bits, ties to even). *)
Definition round_to_double (n : Z) : Z :=
  if (n <? 2 ^ 53)%Z then n
  else
    let e := (Z.log2 n - 52)%Z in
    let q := Z.shiftr n e in
    let r := Z.land n (Z.ones e) in
    let half := (2 ^ (e - 1))%Z in
    let q := if (half <? r)%Z || ((r =? half)%Z && Z.odd q)
             then (q + 1)%Z else q in
    Z.shiftl q e.

(** The number value of [sign * n], for a non-negative integer [n]:
    rounded to a double, infinite from 2^1024 on, and a negative sign on
    zero gives -0. *)
Definition to_number (sign n : Z) : JSNumber :=
  let r := round_to_double n in
  if (2 ^ 1024 <=? r)%Z then infinity (sign <? 0)%Z
  else if (r =? 0)%Z then
    if (sign <? 0)%Z then negative_zero else finite 0
  else finite (sign * r).

(** [parseInt(string)] with no radix argument: leading white space is
    skipped, then an optional sign, an optional [0x] prefix choosing radix
    16 (else 10), and the longest run of digits; no digit gives NaN. *)
Definition parseInt (string : jsstring) : JSNumber :=
  let str := trimStart string in
  let '(sign, str) :=
    match str with
    | 45 :: r => ((-1)%Z, r)          (* '-' *)
    | 43 :: r => (1%Z, r)             (* '+' *)
    | _ => (1%Z, str)
    end in
  let '(R, str) :=
    match str with
    | 48 :: 120 :: r => (16%Z, r)     (* 0x *)
    | 48 :: 88 :: r => (16%Z, r)      (* 0X *)
    | _ => (10%Z, str)
    end in
  match parse_radix R str with
  | Some n => to_number sign n
  | None => NaN
  end.

Fixpoint skip_digits (s : jsstring) : jsstring :=
  match s with
  | [] => []
  | c :: r => if is_decimal_digit c then skip_digits r else s
  end.

(** DecimalDigits, exactly. *)
Definition all_digits1 (s : jsstring) : bool :=
  match s with
  | [] => false
  | c :: r => is_decimal_digit c && bool_decide (skip_digits r = [])
  end.

(** ExponentPart(opt), exactly. *)
Definition exponent_opt (s : jsstring) : bool :=
  match s with
  | [] => true
  | c :: r =>
      ((c =? 101) || (c =? 69)) &&      (* e E *)
      match r with
      | 43 :: d => all_digits1 d
      | 45 :: d => all_digits1 d
      | d => all_digits1 d
      end
  end.

(** StrUnsignedDecimalLiteral, exactly. *)
Definition unsigned_decimal (s : jsstring) : bool :=
  bool_decide (s = js "Infinity") ||
  match s with
  | 46 :: r =>                          (* . DecimalDigits ExponentPart? *)
      match r with
      | c :: _ => is_decimal_digit c && exponent_opt (skip_digits r)
      | [] => false
      end
  | c :: _ =>
      is_decimal_digit c &&
      match skip_digits s with
      | 46 :: r => exponent_opt (skip_digits r)
      | r => exponent_opt r
      end
  | [] => false
  end.

(** StrDecimalLiteral, exactly. *)
Definition str_decimal (s : jsstring) : bool :=
  match s with
  | 43 :: r => unsigned_decimal r
  | 45 :: r => unsigned_decimal r
  | _ => unsigned_decimal s
  end.

Fixpoint all_radix (R : Z) (s : jsstring) : bool :=
  match s with
  | [] => true
  | c :: r =>
      match radix_digit R c with
      | Some _ => all_radix R r
      | None => false
      end
  end.

(** NonDecimalIntegerLiteral (0b.., 0o.., 0x..), exactly. *)
Definition non_decimal (s : jsstring) : bool :=
  match s with
  | 48 :: p :: ((_ :: _) as r) =>
      if (p =? 120) || (p =? 88) then all_radix 16 r
      else if (p =? 111) || (p =? 79) then all_radix 8 r
      else if (p =? 98) || (p =? 66) then all_radix 2 r
      else false
  | _ => false
  end.

(** [isNaN(Number(string))]: StringToNumber yields NaN exactly when the
    trimmed string is neither empty nor a StrNumericLiteral. *)
Definition Number_isNaN (string : jsstring) : bool :=
  let t := trim string in
  match t with
  | [] => false
  | _ => negb (str_decimal t || non_decimal t)
  end.

(** A byte buffer (Node's [Buffer]). *)
Definition Buffer := list byte.

(** An [Error] object, as thrown by Node or emitted by ssh2. *)
Record JsError := mkError { name : jsstring; message : jsstring }.

(** [String(err)] for an Error object ([Error.prototype.toString]). *)
Definition Error_toString (e : JsError) : jsstring :=
  if truthy (name e) then
    if truthy (message e) then name e ++ js ": " ++ message e else name e
  else message e.

(** The expression [err?.message || err] inside a template literal. *)
Definition message_or_err (e : JsError) : jsstring :=
  if truthy (message e) then message e else Error_toString e.

End JS.
Export JS.

(** ** MCP errors and tool results *)

(** [ErrorCode] of the MCP SDK. *)
Inductive ErrorCode :=
| ConnectionClosed | RequestTimeout | ParseError | InvalidRequest
| MethodNotFound | InvalidParams | InternalError.

(** [new McpError(code, message)]: the code and the message handed to the
    constructor. *)
Record McpError := mkMcpError { code : ErrorCode; mcp_message : jsstring }.

(** What the promises of the source are resolved with: the tool result
    [{content: [{type: 'text', text}]}] or, for a download, a Buffer. *)
Inductive Value :=
| content_text (text : jsstring)
| buffer (data : Buffer).

(** A promise: settled at most once; later [resolve] / [reject] calls are
    ignored. *)
Inductive Promise :=
| pending
| fulfilled (v : Value)
| rejected (e : McpError).

Definition resolve (v : Value) (p : Promise) : Promise :=
  match p with pending => fulfilled v | _ => p end.

Definition reject (e : McpError) (p : Promise) : Promise :=
  match p with pending => rejected e | _ => p end.

(** ** The ssh2 connection: calls made on it and events received from it *)

(** The connect options object built by the tool handlers. *)
Record SshConfig := mkSshConfig {
  host : option jsstring;
  port : JSNumber;
  username : option jsstring;
  password : option jsstring;
  privateKey : option jsstring
}.

(** An entry of a directory listing, as handed to the [readdir] callback. *)
Record DirEntry := mkDirEntry { filename : jsstring; longname : jsstring }.

(** The [code] argument of the stream's 'close' event. *)
Inductive CodeValue :=
| code_number (n : Z)
| code_null
| code_undefined.

(** [`${code}`]. *)
Definition CodeValue_toString (c : CodeValue) : jsstring :=
  match c with
  | code_number n => Number_toString n
  | code_null => js "null"
  | code_undefined => js "undefined"
  end.

(** External calls issued by the program, in program order. *)
Inductive Action :=
| fs_readFile (path : jsstring)
| fs_writeFile (path : jsstring) (data : Buffer)
| conn_connect (cfg : SshConfig)
| conn_sftp
| conn_exec (command : jsstring)
| conn_end
| sftp_createWriteStream (remotePath : jsstring)
| writeStream_write (data : Buffer)
| writeStream_end
| sftp_createReadStream (remotePath : jsstring)
| sftp_readdir (remotePath : jsstring).

(** Events and callbacks delivered by the ssh2 library on one connection.
    The source registers no listener for an 'error' of the sftp read or
    write stream ([ev_stream_error]). *)
Inductive Event :=
| ev_ready                                        (* conn 'ready' *)
| ev_error (err : JsError)                        (* conn 'error' *)
| ev_sftp (err : option JsError)                  (* callback of conn.sftp *)
| ev_write_close                                  (* writeStream 'close' *)
| ev_read_data (chunk : Buffer)                   (* readStream 'data' *)
| ev_read_end                                     (* readStream 'end' *)
| ev_stream_error (err : JsError)                 (* 'error' on the sftp stream *)
| ev_readdir (res : JsError + list DirEntry)      (* callback of sftp.readdir *)
| ev_exec (err : option JsError)                  (* callback of conn.exec *)
| ev_stdout_data (data : Buffer)                  (* stream 'data' *)
| ev_stderr_data (data : Buffer)                  (* stream.stderr 'data' *)
| ev_stream_close (code : CodeValue) (signal : option jsstring).

Definition is_conn_end (a : Action) : bool :=
  match a with conn_end => true | _ => false end.

(** Number of [conn.end()] calls in a log. *)
Definition end_count (log : list Action) : nat :=
  length (List.filter is_conn_end log).

Definition is_conn_connect (a : Action) : bool :=
  match a with conn_connect _ => true | _ => false end.

(** Number of [conn.connect(...)] calls in a log. *)
Definition connect_count (log : list Action) : nat :=
  length (List.filter is_conn_connect log).

(** The line feed of the ['\n'] literals. *)
Definition LF : jsstring := [10].

(** ** The handlers of one connection *)

(** State of one invocation of [execSftpCommand] / [execSshCommand]: the
    promise being built, the calls issued so far and which callbacks are
    currently registered (with the variables they close over).  The phases
    follow ssh2's protocol: 'ready' is emitted once and the callbacks of
    [conn.sftp], [conn.exec] and [sftp.readdir] are called once; an event
    that has no registered callback leaves the state as it is. *)
Record Conn (P : Type) := mkConn {
  promise : Promise;
  log : list Action;
  phase : P
}.
Arguments mkConn {P} _ _ _.
Arguments promise {P} _.
Arguments log {P} _.
Arguments phase {P} _.

Definition do_reject {P} (e : McpError) (s : Conn P) : Conn P :=
  mkConn (reject e (promise s)) (log s) (phase s).

Definition do_resolve {P} (v : Value) (s : Conn P) : Conn P :=
  mkConn (resolve v (promise s)) (log s) (phase s).

Definition call {P} (a : Action) (s : Conn P) : Conn P :=
  mkConn (promise s) (log s ++ [a]) (phase s).

Definition goto {P Q} (q : Q) (s : Conn P) : Conn Q :=
  mkConn (promise s) (log s) q.

(** Callbacks registered by [execSshCommand]. *)
Inductive SshPhase :=
| ssh_connecting                               (* 'ready', 'error'; connect issued *)
| ssh_exec_requested                           (* conn.exec issued, callback awaited *)
| ssh_streaming (stdout stderr : jsstring)     (* 'close', 'data', stderr 'data' *)
| ssh_idle.                                    (* exec callback got an error *)

(** Callbacks registered by [execSftpCommand]. *)
Inductive SftpPhase :=
| sftp_connecting                              (* 'ready', 'error'; connect issued *)
| sftp_requested                               (* conn.sftp issued, callback awaited *)
| sftp_uploading (remotePath : jsstring)       (* writeStream 'close' *)
| sftp_downloading (data : Buffer)             (* readStream 'data', 'end' *)
| sftp_listing                                 (* sftp.readdir issued *)
| sftp_idle.

(** The [(action, ...args)] of the calls of [execSftpCommand]. *)
Inductive SftpRequest :=
| req_upload (data : Buffer) (remotePath : jsstring)
| req_download (remotePath : jsstring)
| req_list (remotePath : jsstring)
| req_other (action : jsstring).

(** [`${item.filename} (${item.longname})`] *)
Definition format_entry (item : DirEntry) : jsstring :=
  filename item ++ js " (" ++ longname item ++ js ")".

Section Program.

(** [Buffer.prototype.toString()] (UTF-8 decoding, done by Node). *)
Variable toString : Buffer → jsstring.

(** One event delivered to the callbacks of [execSshCommand]. *)
Definition ssh_step (command : jsstring)
    (s : Conn SshPhase) (ev : Event) : Conn SshPhase :=
  match ev, phase s with
  | ev_error err, _ =>
      do_reject (mkMcpError InternalError
                   (js "SSH connection error: " ++ message err)) s
  | ev_ready, ssh_connecting =>
      goto ssh_exec_requested (call (conn_exec command) s)
  | ev_exec (Some err), ssh_exec_requested =>
      goto ssh_idle
        (call conn_end
           (do_reject (mkMcpError InternalError
                         (js "SSH exec error: " ++ message err)) s))
  | ev_exec None, ssh_exec_requested =>
      goto (ssh_streaming [] []) s
  | ev_stream_close code signal, ssh_streaming stdout stderr =>
      let s := call conn_end s in
      if truthy stderr then
        do_reject (mkMcpError InternalError
                     (js "Error (code " ++ CodeValue_toString code
                        ++ js "):" ++ LF ++ stderr)) s
      else
        do_resolve (content_text stdout) s
  | ev_stdout_data data, ssh_streaming stdout stderr =>
      goto (ssh_streaming (stdout ++ toString data) stderr) s
  | ev_stderr_data data, ssh_streaming stdout stderr =>
      goto (ssh_streaming stdout (stderr ++ toString data)) s
  | _, _ => s
  end.

(** [execSshCommand(sshConfig, command)] against the events the
    connection delivers. *)
Definition execSshCommand (sshConfig : SshConfig) (command : jsstring)
    (events : list Event) : Conn SshPhase :=
  fold_left (ssh_step command) events
    (mkConn pending [conn_connect sshConfig] ssh_connecting).

(** One event delivered to the callbacks of [execSftpCommand]. *)
Definition sftp_step (req : SftpRequest)
    (s : Conn SftpPhase) (ev : Event) : Conn SftpPhase :=
  match ev, phase s with
  | ev_error err, _ =>
      do_reject (mkMcpError InternalError
                   (js "SFTP connection error: " ++ message err)) s
  | ev_ready, sftp_connecting =>
      goto sftp_requested (call conn_sftp s)
  | ev_sftp (Some err), sftp_requested =>
      goto sftp_idle
        (call conn_end
           (do_reject (mkMcpError InternalError
                         (js "SFTP error: " ++ message err)) s))
  | ev_sftp None, sftp_requested =>
      match req with
      | req_upload data remotePath =>
          goto (sftp_uploading remotePath)
            (call writeStream_end
               (call (writeStream_write data)
                  (call (sftp_createWriteStream remotePath) s)))
      | req_download remotePath =>
          goto (sftp_downloading [])
            (call (sftp_createReadStream remotePath) s)
      | req_list remotePath =>
          goto sftp_listing (call (sftp_readdir remotePath) s)
      | req_other _ =>
          goto sftp_idle
            (call conn_end
               (do_reject (mkMcpError InternalError
                             (js "Invalid SFTP action")) s))
      end
  | ev_write_close, sftp_uploading remotePath =>
      call conn_end
        (do_resolve (content_text (js "File uploaded to " ++ remotePath)) s)
  | ev_read_data chunk, sftp_downloading data =>
      goto (sftp_downloading (data ++ chunk)) s
  | ev_read_end, sftp_downloading data =>
      call conn_end (do_resolve (buffer data) s)
  | ev_readdir (inl err), sftp_listing =>
      goto sftp_idle
        (call conn_end
           (do_reject (mkMcpError InternalError
                         (js "List error: " ++ message err)) s))
  | ev_readdir (inr list), sftp_listing =>
      goto sftp_idle
        (call conn_end
           (do_resolve
              (content_text (join LF (format_entry <$> list))) s))
  | _, _ => s
  end.

(** [execSftpCommand(sshConfig, action, ...args)] against the events the
    connection delivers. *)
Definition execSftpCommand (sshConfig : SshConfig) (req : SftpRequest)
    (events : list Event) : Conn SftpPhase :=
  fold_left (sftp_step req) events
    (mkConn pending [conn_connect sshConfig] sftp_connecting).

(** ** The local side: file system, thrown values, async handlers *)

(** What a path of the local file system holds: a regular file, a
    directory, or [denied code description] for a path that cannot be
    opened, neither for reading nor for writing (a missing parent
    directory, a missing permission, a parent that is not a directory,
    ...), the error of the system call having that code and description.
    A path without entry holds no file, and a file can be created there.
    No entry is kept at the empty path. *)
Inductive Node :=
| file (data : Buffer)
| directory
| denied (code description : jsstring).

(** The local file system together with the log of every external call
    made so far. *)
Record World := mkWorld {
  files : gmap jsstring Node;
  effects : list Action
}.

(** A thrown value: an [McpError] or another [Error]. *)
Inductive Thrown :=
| thrown_mcp (e : McpError)
| thrown_error (e : JsError).

(** How an [async] function ends: its promise is fulfilled, rejected, or is
    never settled (an awaited promise stayed pending). *)
Inductive Outcome (A : Type) :=
| returns (a : A)
| throws (t : Thrown)
| never_settles.
Arguments returns {A} _.
Arguments throws {A} _.
Arguments never_settles {A}.

Definition M (A : Type) : Type := World → Outcome A * World.

Definition ret {A} (a : A) : M A := λ w, (returns a, w).

Definition throw {A} (t : Thrown) : M A := λ w, (throws t, w).

Definition bind {A B} (m : M A) (k : A → M B) : M B :=
  λ w, match m w with
       | (returns a, w') => k a w'
       | (throws t, w') => (throws t, w')
       | (never_settles, w') => (never_settles, w')
       end.

Notation "'await' x ← m ; k" := (bind m (λ x, k))
  (at level 10, x binder, m at level 100, k at level 200, only parsing).

(** [try { m } catch (err) { h err }] *)
Definition try_catch {A} (m : M A) (h : Thrown → M A) : M A :=
  λ w, match m w with
       | (throws t, w') => h t w'
       | r => r
       end.

Definition record (a : Action) (w : World) : World :=
  mkWorld (files w) (effects w ++ [a]).

Definition ENOENT (path : jsstring) : JsError :=
  mkError (js "Error")
    (js "ENOENT: no such file or directory, open '" ++ path ++ js "'").

Definition EISDIR (syscall : jsstring) : JsError :=
  mkError (js "Error")
    (js "EISDIR: illegal operation on a directory, " ++ syscall).

(** The error of a failed [open]:
    "<code>: <description>, open '<path>'". *)
Definition open_error (code description path : jsstring) : JsError :=
  mkError (js "Error")
    (code ++ js ": " ++ description ++ js ", open '" ++ path ++ js "'").

(** [await fs.readFile(path)] *)
Definition readFile (path : jsstring) : M Buffer :=
  λ w, let w' := record (fs_readFile path) w in
       match files w !! path with
       | Some (file data) => (returns data, w')
       | Some directory => (throws (thrown_error (EISDIR (js "read"))), w')
       | Some (denied code description) =>
           (throws (thrown_error (open_error code description path)), w')
       | None => (throws (thrown_error (ENOENT path)), w')
       end.

(** [await fs.readFile(path, 'utf8')] *)
Definition readFile_utf8 (path : jsstring) : M jsstring :=
  await data ← readFile path; ret (toString data).

(** [await fs.writeFile(path, data)]: the file is created or replaced,
    unless the path is empty, is a directory or cannot be opened. *)
Definition writeFile (path : jsstring) (data : Buffer) : M unit :=
  λ w, let w' := record (fs_writeFile path data) w in
       match path, files w !! path with
       | [], _ => (throws (thrown_error (ENOENT path)), w')
       | _, Some directory =>
           (throws (thrown_error
                      (EISDIR (js "open '" ++ path ++ js "'"))), w')
       | _, Some (denied code description) =>
           (throws (thrown_error (open_error code description path)), w')
       | _, _ =>
           (returns tt, mkWorld (<[path := file data]> (files w)) (effects w'))
       end.

(** [await] on the promise returned by [execSftpCommand] /
    [execSshCommand]; the calls made on the connection enter the log. *)
Definition await_conn {P} (c : Conn P) : M Value :=
  λ w, let w' := mkWorld (files w) (effects w ++ log c) in
       match promise c with
       | fulfilled v => (returns v, w')
       | rejected e => (throws (thrown_mcp e), w')
       | pending => (never_settles, w')
       end.

(** [if (err instanceof McpError) throw err;
     throw new McpError(ErrorCode.InternalError, `<prefix>${err?.message || err}`)] *)
Definition rethrow {A} (prefix : jsstring) (err : Thrown) : M A :=
  match err with
  | thrown_mcp e => throw (thrown_mcp e)
  | thrown_error e =>
      throw (thrown_mcp (mkMcpError InternalError (prefix ++ message_or_err e)))
  end.

(** ** Startup configuration *)

(** [argvConfig]: the [--name=value] arguments. *)
Variable argvConfig : gmap jsstring jsstring.

Definition HOST : option jsstring := argvConfig !! js "host".

Definition PORT : JSNumber :=
  match argvConfig !! js "port" with
  | Some p => if truthy p then parseInt p else finite 22
  | None => finite 22
  end.

Definition USER : option jsstring := argvConfig !! js "user".

Definition PASSWORD : option jsstring := argvConfig !! js "password".

Definition KEY : option jsstring := argvConfig !! js "key".

(** ** Tool handlers *)

(** The block shared by the four handlers:
    [const sshConfig = {host: HOST, port: PORT, username: USER};
     if (PASSWORD) sshConfig.password = PASSWORD;
     else if (KEY) sshConfig.privateKey = await fs.readFile(KEY, 'utf8');] *)
Definition build_sshConfig : M SshConfig :=
  let sshConfig := mkSshConfig HOST PORT USER None None in
  if truthy_opt PASSWORD then
    ret (mkSshConfig HOST PORT USER PASSWORD None)
  else
    match KEY with
    | Some k =>
        if truthy k then
          await text ← readFile_utf8 k;
          ret (mkSshConfig HOST PORT USER None (Some text))
        else ret sshConfig
    | None => ret sshConfig
    end.

(** The "sftp_upload" tool. *)
Definition sftp_upload (localPath remotePath : jsstring)
    (events : list Event) : M Value :=
  try_catch
    (await fileData ← readFile localPath;
     await sshConfig ← build_sshConfig;
     await _ ← await_conn
                 (execSftpCommand sshConfig
                    (req_upload fileData remotePath) events);
     ret (content_text (js "File uploaded to " ++ remotePath)))
    (rethrow (js "Upload failed: ")).

(** The text of the "expected a Buffer" message of the download handler
    (UTF-16 code units of the literal), followed by [typeof result]. *)
Definition not_a_buffer_message : jsstring :=
  js "Download failed: " ++
  [26399; 26395; 32467; 26524; 20026; 32] ++ js "Buffer" ++
  [32; 31867; 22411; 65292; 20294; 24471; 21040; 32] ++ js "object".

(** The "sftp_download" tool. *)
Definition sftp_download (remotePath localPath : jsstring)
    (events : list Event) : M Value :=
  try_catch
    (await sshConfig ← build_sshConfig;
     await result ← await_conn
                      (execSftpCommand sshConfig
                         (req_download remotePath) events);
     await _ ← match result with
               | buffer data => writeFile localPath data
               | content_text _ =>
                   throw (thrown_mcp
                            (mkMcpError InternalError not_a_buffer_message))
               end;
     ret (content_text (js "File downloaded to " ++ localPath)))
    (rethrow (js "Download failed: ")).

(** The "sftp_list" tool.  The awaited value is the tool result object
    built by [execSftpCommand], which has no [map] method: calling
    [list.map] throws a TypeError.  (On a Buffer, [map] yields a Buffer of
    zeros.) *)
Definition sftp_list (remotePath : jsstring)
    (events : list Event) : M Value :=
  try_catch
    (await sshConfig ← build_sshConfig;
     await list ← await_conn
                    (execSftpCommand sshConfig (req_list remotePath) events);
     match list with
     | content_text _ =>
         throw (thrown_error
                  (mkError (js "TypeError") (js "list.map is not a function")))
     | buffer data =>
         ret (content_text (join LF ((λ _, js "0") <$> data)))
     end)
    (rethrow (js "List failed: ")).

(** The "exec" tool. *)
Definition exec (command : jsstring) (events : list Event) : M Value :=
  if negb (truthy (trim command)) then
    throw (thrown_mcp
             (mkMcpError InternalError
                (js "Command must be a non-empty string.")))
  else
    try_catch
      (await sshConfig ← build_sshConfig;
       await_conn (execSshCommand sshConfig command events))
      (rethrow (js "Unexpected error: ")).

End Program.

Arguments returns {A} _.
Arguments throws {A} _.
Arguments never_settles {A}.

(** The four tools registered on the server. *)
Inductive ToolCall :=
| call_sftp_upload (localPath remotePath : jsstring)
| call_sftp_download (remotePath localPath : jsstring)
| call_sftp_list (remotePath : jsstring)
| call_exec (command : jsstring).

(** One tool invocation, against the events its connection delivers. *)
Definition run_tool (toString : Buffer → jsstring)
    (argvConfig : gmap jsstring jsstring) (call : ToolCall)
    (events : list Event) : M Value :=
  match call with
  | call_sftp_upload localPath remotePath =>
      sftp_upload toString argvConfig localPath remotePath events
  | call_sftp_download remotePath localPath =>
      sftp_download toString argvConfig remotePath localPath events
  | call_sftp_list remotePath =>
      sftp_list toString argvConfig remotePath events
  | call_exec command =>
      exec toString argvConfig command events
  end.

(** ** Startup *)

(** The regular expression of [parseArgv]: two dashes, a non-empty name
    without an equals sign, an equals sign, then a value without line
    terminators up to the end of the argument.  [split_at_equals] cuts at
    the first equals sign. *)
Fixpoint split_at_equals (s : jsstring) : option (jsstring * jsstring) :=
  match s with
  | [] => None
  | c :: r =>
      if c =? 61 then Some ([], r)
      else match split_at_equals r with
           | Some (k, v) => Some (c :: k, v)
           | None => None
           end
  end.

(** [arg.match(...)]: the captured name and value, when the argument
    matches. *)
Definition match_arg (arg : jsstring) : option (jsstring * jsstring) :=
  match arg with
  | 45 :: 45 :: r =>
      match split_at_equals r with
      | Some (k, v) =>
          if truthy k && forallb (λ c, negb (is_line_terminator c)) v
          then Some (k, v) else None
      | None => None
      end
  | _ => None
  end.

(** [config[k] = v] on the plain object [config], whose own properties
    the map holds: the name [__proto__] reaches the setter inherited from
    [Object.prototype], which ignores a string and stores nothing; any
    other name becomes (or replaces) an own property. *)
Definition assign (k v : jsstring) (config : gmap jsstring jsstring)
    : gmap jsstring jsstring :=
  if bool_decide (k = js "__proto__") then config else <[k := v]> config.

(** [parseArgv()] on [process.argv.slice(2)]; a later argument with the
    same name overwrites an earlier one. *)
Definition parseArgv (args : list jsstring) : gmap jsstring jsstring :=
  fold_left
    (λ config arg,
       match match_arg arg with
       | Some (k, v) => assign k v config
       | None => config
       end)
    args ∅.

(** The [errors] array of [validateConfig]. *)
Definition config_errors (config : gmap jsstring jsstring) : list jsstring :=
  (if truthy_opt (config !! js "host") then []
   else [js "Missing required --host"]) ++
  (if truthy_opt (config !! js "user") then []
   else [js "Missing required --user"]) ++
  (match config !! js "port" with
   | Some p => if truthy p && Number_isNaN p then [js "Invalid --port"] else []
   | None => []
   end).

(** [validateConfig(config)]: [None] when it returns, [Some e] when it
    throws the [Error] [e]. *)
Definition validateConfig (config : gmap jsstring jsstring) : option JsError :=
  let errors := config_errors config in
  if (0 <? length errors)%nat then
    Some (mkError (js "Error")
            (js "Configuration error:" ++ LF ++ join LF errors))
  else None.

(** How the module's top-level code ends: the tools are registered and the
    server is connected to stdio, or [validateConfig] threw first. *)
Inductive Startup :=
| serving (argvConfig : gmap jsstring jsstring)
| startup_failed (e : JsError).

Definition startup (args : list jsstring) : Startup :=
  let argvConfig := parseArgv args in
  match validateConfig argvConfig with
  | Some e => startup_failed e
  | None => serving argvConfig
  end.

(** ** The error taxonomy of the specification *)

(** Spec-side definition (section 7 of the specification).  The source
    raises every failure as [McpError] with [ErrorCode.InternalError] and
    tells the failures apart by their message text only; [spec_kind] reads
    the kind of the taxonomy off that text. *)
Inductive ErrorKind :=
| ConnectionError | LocalIoError | TransferError
| RemoteExecError | InvalidArgument.

Fixpoint starts_with (p s : jsstring) : bool :=
  match p, s with
  | [], _ => true
  | a :: p', b :: s' => (a =? b) && starts_with p' s'
  | _ :: _, [] => false
  end.

Definition spec_kind (e : McpError) : option ErrorKind :=
  let m := mcp_message e in
  if starts_with (js "SSH connection error: ") m
     || starts_with (js "SFTP connection error: ") m then Some ConnectionError
  else if starts_with (js "Error (code ") m then Some RemoteExecError
  else if starts_with (js "List error: ") m
          || starts_with (js "SFTP error: ") m then Some TransferError
  else if starts_with (js "Upload failed: ") m then Some LocalIoError
  else if bool_decide (m = js "Command must be a non-empty string.")
  then Some InvalidArgument
  else None.


(** ** Definitions used to state the properties *)

(** One chunk of the remote process's output, on either stream. *)
Inductive Output :=
| on_stdout (data : Buffer)
| on_stderr (data : Buffer).

Definition output_event (o : Output) : Event :=
  match o with
  | on_stdout data => ev_stdout_data data
  | on_stderr data => ev_stderr_data data
  end.

(** All standard-error bytes of an output sequence. *)
Fixpoint stderr_bytes (os : list Output) : Buffer :=
  match os with
  | [] => []
  | on_stderr data :: r => data ++ stderr_bytes r
  | on_stdout _ :: r => stderr_bytes r
  end.

(** The accumulated texts: chunk decodings appended in arrival order. *)
Fixpoint stdout_text (toString : Buffer → jsstring) (os : list Output)
    : jsstring :=
  match os with
  | [] => []
  | on_stdout data :: r => toString data ++ stdout_text toString r
  | on_stderr _ :: r => stdout_text toString r
  end.

Fixpoint stderr_text (toString : Buffer → jsstring) (os : list Output)
    : jsstring :=
  match os with
  | [] => []
  | on_stderr data :: r => toString data ++ stderr_text toString r
  | on_stdout _ :: r => stderr_text toString r
  end.

(** Latin-1 decoding, a decoder that is empty only on the empty buffer. *)
Definition latin1 (b : Buffer) : jsstring := (λ x, Byte.to_N x) <$> b.


(** Calls made on an established connection: everything but
    [conn.connect] and the local file operations. *)
Definition on_connection (a : Action) : bool :=
  match a with
  | conn_connect _ | fs_readFile _ | fs_writeFile _ _ => false
  | _ => true
  end.

Definition download_phase (ph : SftpPhase) : bool :=
  match ph with
  | sftp_uploading _ | sftp_listing => false
  | _ => true
  end.

Definition is_fulfilled (p : Promise) : bool :=
  match p with fulfilled _ => true | _ => false end.

Definition is_fs_writeFile (a : Action) : bool :=
  match a with fs_writeFile _ _ => true | _ => false end.

(** Number of [fs.writeFile] calls in a log. *)
Definition write_count (l : list Action) : nat :=
  length (List.filter is_fs_writeFile l).

(** Number of credentials a connect configuration carries. *)
Definition auth_count (cfg : SshConfig) : nat :=
  (match password cfg with Some _ => 1 | None => 0 end +
   match privateKey cfg with Some _ => 1 | None => 0 end)%nat.

(** The credential choice of the handlers, as a property of the
    configuration handed to [conn.connect]. *)
Definition auth_selected (toString : Buffer → jsstring)
    (argvConfig : gmap jsstring jsstring) (cfg : SshConfig) : Prop :=
  if truthy_opt (PASSWORD argvConfig) then
    password cfg = PASSWORD argvConfig ∧ privateKey cfg = None
  else if truthy_opt (KEY argvConfig) then
    password cfg = None ∧ ∃ data, privateKey cfg = Some (toString data)
  else
    password cfg = None ∧ privateKey cfg = None.

(** Every [conn.connect] a computation adds to the log carries a
    configuration satisfying [P]. *)
Definition connects_with (P : SshConfig → Prop) {A} (m : M A) : Prop :=
  ∀ w r w', m w = (r, w') →
    ∀ cfg, conn_connect cfg ∈ effects w' → conn_connect cfg ∈ effects w ∨ P cfg.

(** Every value a computation returns satisfies [Q]. *)
Definition returns_only {A} (Q : A → Prop) (m : M A) : Prop :=
  ∀ w a w', m w = (returns a, w') → Q a.

(** Spec-side definition (section 3 of the specification): a port value is
    well formed when it is a decimal integer between 1 and 65535. *)
Definition spec_port_well_formed (p : jsstring) : bool :=
  all_digits1 p &&
  (1 <=? parse_digits 10 0 p)%Z && (parse_digits 10 0 p <=? 65535)%Z.

(** A configuration with host, user and the port "70000". *)
Definition config_port_70000 : gmap jsstring jsstring :=
  parseArgv [js "--host=1.2.3.4"; js "--port=70000"; js "--user=root"].

(** The calls that serve one sftp request. *)
Definition request_calls (req : SftpRequest) : list Action :=
  match req with
  | req_upload data remotePath =>
      [sftp_createWriteStream remotePath; writeStream_write data;
       writeStream_end]
  | req_download remotePath => [sftp_createReadStream remotePath]
  | req_list remotePath => [sftp_readdir remotePath]
  | req_other _ => []
  end.

(** A thrown [McpError] whose code is [ErrorCode.InternalError]. *)
Definition internal_error (t : Thrown) : Prop :=
  ∃ text, t = thrown_mcp (mkMcpError InternalError text).

(** What a [catch] block of the handlers may receive: a plain [Error], or
    an [McpError] whose code is [ErrorCode.InternalError]. *)
Definition plain_or_internal (t : Thrown) : Prop :=
  match t with
  | thrown_error _ => True
  | thrown_mcp e => code e = InternalError
  end.

(** Every value a computation throws satisfies [P]. *)
Definition throws_only (P : Thrown → Prop) {A} (m : M A) : Prop :=
  ∀ w t w', m w = (throws t, w') → P t.

(** A computation neither changes the local files nor calls
    [fs.writeFile]. *)
Definition no_local_write {A} (m : M A) : Prop :=
  ∀ w r w', m w = (r, w') →
    files w' = files w ∧ write_count (effects w') = write_count (effects w).

(** A rejected promise carries an [InternalError]. *)
Definition rejects_internal (p : Promise) : Prop :=
  match p with rejected e => code e = InternalError | _ => True end.

(** The prefix the [catch] block of each tool puts before the message of
    a plain [Error]. *)
Definition catch_prefix (call : ToolCall) : jsstring :=
  match call with
  | call_sftp_upload _ _ => js "Upload failed: "
  | call_sftp_download _ _ => js "Download failed: "
  | call_sftp_list _ => js "List failed: "
  | call_exec _ => js "Unexpected error: "
  end.

(** What a tool does before it builds the connect configuration: the
    upload reads the local file, the exec tool checks the command.  The
    proposition says that this step lets the tool go on, and [first_reads]
    lists the file reads it made. *)
Definition goes_on (call : ToolCall) (w : World) : Prop :=
  match call with
  | call_sftp_upload localPath _ => ∃ data, files w !! localPath = Some (file data)
  | call_exec command => negb (truthy (trim command)) = false
  | _ => True
  end.

Definition first_reads (call : ToolCall) : list Action :=
  match call with
  | call_sftp_upload localPath _ => [fs_readFile localPath]
  | _ => []
  end.

(** The event whose callback resolves the promise of a request. *)
Definition completes (req : SftpRequest) (ev : Event) : bool :=
  match req, ev with
  | req_upload _ _, ev_write_close => true
  | req_download _, ev_read_end => true
  | req_list _, ev_readdir (inr _) => true
  | _, _ => false
  end.

(** The events whose callback rejects the promise of [execSftpCommand]:
    a connection error, a failed subsystem or listing callback, and the
    subsystem callback itself when the action is unknown. *)
Definition fails (req : SftpRequest) (ev : Event) : bool :=
  match ev, req with
  | ev_error _, _ => true
  | ev_sftp (Some _), _ => true
  | ev_sftp None, req_other _ => true
  | ev_readdir (inl _), req_list _ => true
  | _, _ => false
  end.

(** The events whose callback settles the promise of [execSshCommand]. *)
Definition settles_exec (ev : Event) : bool :=
  match ev with
  | ev_error _ | ev_exec (Some _) | ev_stream_close _ _ => true
  | _ => false
  end.

(** The phase of [execSftpCommand] fits the request it serves. *)
Definition phase_fits (req : SftpRequest) (ph : SftpPhase) : bool :=
  match ph, req with
  | sftp_uploading _, req_upload _ _ => true
  | sftp_downloading _, req_download _ => true
  | sftp_listing, req_list _ => true
  | (sftp_uploading _ | sftp_downloading _ | sftp_listing), _ => false
  | _, _ => true
  end.

(** What an invocation has come to: its promise and the calls it made. *)
Definition outcome {P} (c : Conn P) : Promise * list Action :=
  (promise c, log c).

(** [fs.writeFile] can create or replace the file at a path: the path is
    not empty, is not a directory and can be opened (its parent directory
    exists, the permissions allow it, ...). *)
Definition can_write (w : World) (path : jsstring) : Prop :=
  path ≠ [] ∧
  files w !! path ≠ Some directory ∧
  ∀ code description, files w !! path ≠ Some (denied code description).

(** A computation calls [conn.connect] at most [n] more times. *)
Definition connects_at_most (n : nat) {A} (m : M A) : Prop :=
  ∀ w r w', m w = (r, w') →
    (connect_count (effects w') ≤ connect_count (effects w) + n)%nat.

(** ** Basic facts *)

Lemma trimStart_nil (s : jsstring) :
  trimStart s = [] ↔ Forall (λ c, is_trimmed_char c = true) s.
Proof.
  induction s as [|c s IH]; simpl.
  - split; [constructor | done].
  - destruct (is_trimmed_char c) eqn:Hc.
    + rewrite IH. split; intros H.
      * by constructor.
      * by inversion H.
    + split; [done|]. intros H. inversion H; congruence.
Qed.

Lemma trimStart_all (s : jsstring) :
  Forall (λ c, is_trimmed_char c = true) (trimStart s) →
  Forall (λ c, is_trimmed_char c = true) s.
Proof.
  induction s as [|c s IH]; simpl; [done|].
  destruct (is_trimmed_char c) eqn:Hc; [|done].
  intros H. constructor; auto.
Qed.

(** [trim] leaves nothing exactly when every code unit is white space or a
    line terminator. *)
Lemma trim_nil (s : jsstring) :
  trim s = [] ↔ Forall (λ c, is_trimmed_char c = true) s.
Proof.
  unfold trim, trimEnd. split.
  - intros H. apply trimStart_all.
    apply (f_equal reverse) in H. rewrite reverse_involutive in H.
    change (reverse []) with (@nil N) in H.
    apply trimStart_nil in H. by apply (proj1 (Forall_reverse _ _)) in H.
  - intros H. apply trimStart_nil in H. by rewrite H.
Qed.

(** ** Exec: the remote command's two output streams *)

Section ExecOutput.

Variable toString : Buffer → jsstring.

Lemma ssh_stream_outputs command (os : list Output) p l out err :
  fold_left (ssh_step toString command) (output_event <$> os)
    (mkConn p l (ssh_streaming out err)) =
  mkConn p l (ssh_streaming (out ++ stdout_text toString os) (err ++ stderr_text toString os)).
Proof.
  revert out err. induction os as [|o os IH]; intros out err; simpl.
  - by rewrite !app_nil_r.
  - destruct o as [d|d]; simpl; unfold goto; simpl;
      rewrite IH; by rewrite <- app_assoc.
Qed.

(** Decoding is empty only on the empty buffer: then text was accumulated
    exactly when bytes were received. *)
Lemma stderr_text_nil (os : list Output) :
  (∀ b, toString b = [] ↔ b = []) →
  stderr_text toString os = [] ↔ stderr_bytes os = [].
Proof.
  intros Hdec. induction os as [|[d|d] os IH]; simpl; [done|done|].
  split; intros H; apply app_eq_nil in H as [H1 H2].
  - apply Hdec in H1. apply IH in H2. by rewrite H1, H2.
  - apply Hdec in H1. apply IH in H2. by rewrite H1, H2.
Qed.

(** The state in which the stream's 'close' event arrives. *)
Lemma ssh_before_close cfg command (os : list Output) :
  execSshCommand toString cfg command
    ([ev_ready; ev_exec None] ++ (output_event <$> os)) =
  mkConn pending [conn_connect cfg; conn_exec command]
    (ssh_streaming (stdout_text toString os) (stderr_text toString os)).
Proof.
  unfold execSshCommand. rewrite fold_left_app. simpl.
  unfold goto, call; simpl. by rewrite ssh_stream_outputs.
Qed.

End ExecOutput.

Lemma spec_kind_remote_exec (m : jsstring) :
  spec_kind (mkMcpError InternalError (js "Error (code " ++ m)) =
  Some RemoteExecError.
Proof. reflexivity. Qed.

Lemma spec_kind_connection (m : jsstring) :
  spec_kind (mkMcpError InternalError (js "SSH connection error: " ++ m)) =
    Some ConnectionError ∧
  spec_kind (mkMcpError InternalError (js "SFTP connection error: " ++ m)) =
    Some ConnectionError.
Proof. split; reflexivity. Qed.

Lemma spec_kind_list_error (m : jsstring) :
  spec_kind (mkMcpError InternalError (js "List error: " ++ m)) =
  Some TransferError.
Proof. reflexivity. Qed.

(** C1. Exec, from the 'close' event of the remote stream (code lines
    271-291): when any standard-error bytes arrived before the close, the
    promise is rejected with the error the taxonomy calls RemoteExecError,
    whose message holds the exit code and the whole accumulated
    standard-error text, whatever the exit code and the standard output;
    when no standard-error bytes arrived, it is fulfilled with the whole
    accumulated standard-output text, whatever the exit code. *)
Theorem exec_stderr_policy (toString : Buffer → jsstring)
    (cfg : SshConfig) (command : jsstring) (os : list Output)
    (code : CodeValue) (signal : option jsstring) :
  (∀ b, toString b = [] ↔ b = []) →
  let c := execSshCommand toString cfg command
             ([ev_ready; ev_exec None] ++ (output_event <$> os)
                ++ [ev_stream_close code signal]) in
  let failure := mkMcpError InternalError
                   (js "Error (code " ++ CodeValue_toString code
                      ++ js "):" ++ LF ++ stderr_text toString os) in
  (stderr_bytes os ≠ [] →
     promise c = rejected failure ∧
     spec_kind failure = Some RemoteExecError) ∧
  (stderr_bytes os = [] →
     promise c = fulfilled (content_text (stdout_text toString os))).
Proof.
  intros Hdec c failure.
  assert (Hc : c = ssh_step toString command
                 (mkConn pending [conn_connect cfg; conn_exec command]
                    (ssh_streaming (stdout_text toString os)
                                   (stderr_text toString os)))
                 (ev_stream_close code signal)).
  { subst c. unfold execSshCommand.
    rewrite app_assoc, fold_left_app.
    fold (execSshCommand toString cfg command
            ([ev_ready; ev_exec None] ++ (output_event <$> os))).
    by rewrite ssh_before_close. }
  rewrite Hc. simpl. split.
  - intros Hne. split; [|apply spec_kind_remote_exec].
    destruct (stderr_text toString os) eqn:Ht; [|done].
    apply stderr_text_nil in Ht; done.
  - intros Hnil. apply (stderr_text_nil toString os Hdec) in Hnil.
    by rewrite Hnil.
Qed.

Lemma latin1_nil (b : Buffer) : latin1 b = [] ↔ b = [].
Proof. by destruct b. Qed.

Lemma exec_stderr_policy_witness :
  promise (execSshCommand latin1 (mkSshConfig None (finite 22) None None None)
             (js "ls")
             [ev_ready; ev_exec None;
              ev_stdout_data (list_byte_of_string "ok");
              ev_stderr_data (list_byte_of_string "w");
              ev_stream_close (code_number 0) None]) =
  rejected (mkMcpError InternalError (js "Error (code 0):" ++ LF ++ js "w")).
Proof.
  pose proof (exec_stderr_policy latin1
                (mkSshConfig None (finite 22) None None None) (js "ls")
                [on_stdout (list_byte_of_string "ok");
                 on_stderr (list_byte_of_string "w")]
                (code_number 0) None latin1_nil) as [H _].
  destruct H as [H _]; [simpl; discriminate|]. exact H.
Defined.

(** ** Exec: the command check *)

(** C3. An exec command that is empty or made only of white space (the
    code units [trim] strips) is rejected with the error the taxonomy
    calls InvalidArgument, and the handler stops there: the file system and
    the log of external calls are left as they were, so no connection was
    attempted (nor any file read). *)
Theorem exec_blank_command (toString : Buffer → jsstring)
    (argvConfig : gmap jsstring jsstring) (command : jsstring)
    (events : list Event) (w : World) :
  Forall (λ c, is_trimmed_char c = true) command →
  let failure := mkMcpError InternalError
                   (js "Command must be a non-empty string.") in
  exec toString argvConfig command events w = (throws (thrown_mcp failure), w) ∧
  spec_kind failure = Some InvalidArgument ∧
  connect_count (effects (exec toString argvConfig command events w).2) =
    connect_count (effects w).
Proof.
  intros Hblank failure. apply trim_nil in Hblank.
  assert (H : exec toString argvConfig command events w =
              (throws (thrown_mcp failure), w)).
  { unfold exec. by rewrite Hblank. }
  split; [exact H|]. split; [reflexivity|]. by rewrite H.
Qed.

Lemma exec_blank_command_witness :
  exec latin1 ∅ [32; 9; 10; 0x3000] [ev_ready] (mkWorld ∅ []) =
  (throws (thrown_mcp (mkMcpError InternalError
                         (js "Command must be a non-empty string."))),
   mkWorld ∅ []).
Proof.
  apply (exec_blank_command latin1 ∅ [32; 9; 10; 0x3000] [ev_ready]
           (mkWorld ∅ [])).
  repeat constructor.
Defined.

(** A command with any other code unit passes the check. *)
Lemma exec_command_accepted (command : jsstring) :
  ¬ Forall (λ c, is_trimmed_char c = true) command →
  negb (truthy (trim command)) = false.
Proof.
  intros H. destruct (trim command) eqn:Ht; [|done].
  by apply trim_nil in Ht.
Qed.

(** ** The connection: calls issued by the callbacks *)

Lemma end_count_app (l1 l2 : list Action) :
  end_count (l1 ++ l2) = (end_count l1 + end_count l2)%nat.
Proof. unfold end_count. by rewrite List.filter_app, length_app. Qed.

Lemma connect_count_app (l1 l2 : list Action) :
  connect_count (l1 ++ l2) = (connect_count l1 + connect_count l2)%nat.
Proof. unfold connect_count. by rewrite List.filter_app, length_app. Qed.

(** The callbacks only ever add calls on the connection to the log. *)
Lemma sftp_step_log req s ev :
  ∃ extra, log (sftp_step req s ev) = log s ++ extra ∧
           forallb on_connection extra = true.
Proof.
  destruct s as [p l ph].
  destruct ev as [|?|[?|]| |?| |?|[?|?]|[?|]|?|?|? ?],
           ph as [| |?|?| |];
    try (exists []; by rewrite app_nil_r);
    try (destruct req); cbn; rewrite <- ?app_assoc;
    eexists; (split; [reflexivity|])  ; reflexivity.
Qed.

Lemma ssh_step_log toString command s ev :
  ∃ extra, log (ssh_step toString command s ev) = log s ++ extra ∧
           forallb on_connection extra = true.
Proof.
  destruct s as [p l ph].
  destruct ev as [|?|[?|]| |?| |?|[?|?]|[?|]|?|?|? ?],
           ph as [| |out errtext|];
    try (exists []; by rewrite app_nil_r);
    cbn; try (destruct (truthy errtext)); cbn;
    eexists; (split; [reflexivity|]); reflexivity.
Qed.

Lemma sftp_fold_log req (events : list Event) s :
  ∃ extra, log (fold_left (sftp_step req) events s) = log s ++ extra ∧
           forallb on_connection extra = true.
Proof.
  revert s. induction events as [|ev events IH]; intros s; simpl.
  - exists []. by rewrite app_nil_r.
  - destruct (IH (sftp_step req s ev)) as (e2 & -> & H2).
    destruct (sftp_step_log req s ev) as (e1 & -> & H1).
    exists (e1 ++ e2). rewrite app_assoc, forallb_app, H1, H2. done.
Qed.

Lemma ssh_fold_log toString command (events : list Event) s :
  ∃ extra, log (fold_left (ssh_step toString command) events s)
             = log s ++ extra ∧
           forallb on_connection extra = true.
Proof.
  revert s. induction events as [|ev events IH]; intros s; simpl.
  - exists []. by rewrite app_nil_r.
  - destruct (IH (ssh_step toString command s ev)) as (e2 & -> & H2).
    destruct (ssh_step_log toString command s ev) as (e1 & -> & H1).
    exists (e1 ++ e2). rewrite app_assoc, forallb_app, H1, H2. done.
Qed.

(** The log of an invocation: the one [conn.connect], then calls on the
    connection. *)
Lemma execSftpCommand_log cfg req events :
  ∃ extra, log (execSftpCommand cfg req events) = conn_connect cfg :: extra ∧
           forallb on_connection extra = true.
Proof. apply (sftp_fold_log req events). Qed.

Lemma execSshCommand_log toString cfg command events :
  ∃ extra, log (execSshCommand toString cfg command events)
             = conn_connect cfg :: extra ∧
           forallb on_connection extra = true.
Proof. apply (ssh_fold_log toString command events). Qed.

Lemma on_connection_no_connect (l : list Action) :
  forallb on_connection l = true → connect_count l = 0%nat.
Proof.
  induction l as [|a l IH]; simpl; [done|].
  intros [Ha Hl]%andb_prop. unfold connect_count in *. simpl.
  destruct a; try done; by apply IH.
Qed.

(** [conn.connect] is called once per invocation, whatever happens on the
    connection: there is no retry. *)
Lemma execSftpCommand_connects_once cfg req events :
  connect_count (log (execSftpCommand cfg req events)) = 1%nat.
Proof.
  destruct (execSftpCommand_log cfg req events) as (extra & -> & H).
  change (conn_connect cfg :: extra) with ([conn_connect cfg] ++ extra).
  by rewrite connect_count_app, (on_connection_no_connect _ H).
Qed.

Lemma execSshCommand_connects_once toString cfg command events :
  connect_count (log (execSshCommand toString cfg command events)) = 1%nat.
Proof.
  destruct (execSshCommand_log toString cfg command events) as (extra & -> & H).
  change (conn_connect cfg :: extra) with ([conn_connect cfg] ++ extra).
  by rewrite connect_count_app, (on_connection_no_connect _ H).
Qed.

(** ** Connection failures *)

(** Once the connection has failed before becoming ready, nothing but a
    'ready' event could make a callback act again. *)
Lemma sftp_failed_stable req e l (rest : list Event) :
  Forall (λ ev, ev ≠ ev_ready) rest →
  fold_left (sftp_step req) rest (mkConn (rejected e) l sftp_connecting) =
  mkConn (rejected e) l sftp_connecting.
Proof.
  induction 1 as [|ev rest Hev _ IH]; simpl; [done|].
  destruct ev as [|?|[?|]| |?| |?|[?|?]|[?|]|?|?|? ?]; try done; exact IH.
Qed.

Lemma ssh_failed_stable toString command e l (rest : list Event) :
  Forall (λ ev, ev ≠ ev_ready) rest →
  fold_left (ssh_step toString command) rest
    (mkConn (rejected e) l ssh_connecting) =
  mkConn (rejected e) l ssh_connecting.
Proof.
  induction 1 as [|ev rest Hev _ IH]; simpl; [done|].
  destruct ev as [|?|[?|]| |?| |?|[?|?]|[?|]|?|?|? ?]; try done; exact IH.
Qed.

(** C7. When establishing the session fails (the connection emits 'error'
    before 'ready'), the promise is rejected once, with the error the
    taxonomy calls ConnectionError carrying the underlying message; the
    only call ever made is the single [conn.connect] (no retry, and neither
    the sftp subsystem nor the command is requested), whatever further
    non-'ready' events follow. *)
Theorem connection_failure (toString : Buffer → jsstring) (cfg : SshConfig)
    (req : SftpRequest) (command : jsstring) (err : JsError)
    (rest : list Event) :
  Forall (λ ev, ev ≠ ev_ready) rest →
  let sftp := execSftpCommand cfg req (ev_error err :: rest) in
  let ssh := execSshCommand toString cfg command (ev_error err :: rest) in
  let sftp_failure := mkMcpError InternalError
                        (js "SFTP connection error: " ++ message err) in
  let ssh_failure := mkMcpError InternalError
                       (js "SSH connection error: " ++ message err) in
  (promise sftp = rejected sftp_failure ∧
   spec_kind sftp_failure = Some ConnectionError ∧
   log sftp = [conn_connect cfg]) ∧
  (promise ssh = rejected ssh_failure ∧
   spec_kind ssh_failure = Some ConnectionError ∧
   log ssh = [conn_connect cfg]).
Proof.
  intros Hrest sftp ssh sftp_failure ssh_failure.
  subst sftp ssh. unfold execSftpCommand, execSshCommand. simpl.
  unfold do_reject; simpl.
  rewrite sftp_failed_stable, ssh_failed_stable by done. simpl.
  repeat split; apply spec_kind_connection.
Qed.

Lemma connection_failure_witness :
  promise (execSftpCommand (mkSshConfig None (finite 22) None None None)
             (req_list (js "/"))
             [ev_error (mkError (js "Error") (js "connect ECONNREFUSED"));
              ev_error (mkError (js "Error") (js "again"))]) =
  rejected (mkMcpError InternalError
              (js "SFTP connection error: connect ECONNREFUSED")).
Proof.
  apply (connection_failure latin1 (mkSshConfig None (finite 22) None None None)
           (req_list (js "/")) (js "ls")
           (mkError (js "Error") (js "connect ECONNREFUSED"))
           [ev_error (mkError (js "Error") (js "again"))]).
  repeat constructor; discriminate.
Defined.

(** ** Closing the connection *)

(** The paths on which a callback closes the connection close it once. *)
Lemma sftp_subsystem_error_ends_once cfg req err :
  let c := execSftpCommand cfg req [ev_ready; ev_sftp (Some err)] in
  promise c = rejected (mkMcpError InternalError
                          (js "SFTP error: " ++ message err)) ∧
  end_count (log c) = 1%nat.
Proof. done. Qed.

Lemma upload_ends_once cfg data remotePath :
  let c := execSftpCommand cfg (req_upload data remotePath)
             [ev_ready; ev_sftp None; ev_write_close] in
  promise c = fulfilled (content_text (js "File uploaded to " ++ remotePath)) ∧
  log c = [conn_connect cfg; conn_sftp; sftp_createWriteStream remotePath;
           writeStream_write data; writeStream_end; conn_end].
Proof. done. Qed.

Lemma list_error_ends_once cfg remotePath err :
  end_count (log (execSftpCommand cfg (req_list remotePath)
                    [ev_ready; ev_sftp None; ev_readdir (inl err)])) = 1%nat.
Proof. done. Qed.

Lemma exec_error_ends_once toString cfg command err :
  let c := execSshCommand toString cfg command [ev_ready; ev_exec (Some err)] in
  promise c = rejected (mkMcpError InternalError
                          (js "SSH exec error: " ++ message err)) ∧
  end_count (log c) = 1%nat.
Proof. done. Qed.

Lemma exec_close_ends_once toString cfg command (os : list Output) code signal :
  end_count (log (execSshCommand toString cfg command
                    ([ev_ready; ev_exec None] ++ (output_event <$> os)
                       ++ [ev_stream_close code signal]))) = 1%nat.
Proof.
  unfold execSshCommand. rewrite app_assoc, fold_left_app.
  fold (execSshCommand toString cfg command
          ([ev_ready; ev_exec None] ++ (output_event <$> os))).
  rewrite ssh_before_close. simpl.
  by destruct (truthy (stderr_text toString os)).
Qed.

(** C2. Where the code leaves the session open: the 'error' callback of
    the connection rejects the promise without calling [conn.end()], both
    when the connection fails at once and when it fails after the session
    became ready; and no callback listens for an 'error' of the transfer
    stream, so a failed download or upload neither settles the promise nor
    ends the connection.  On each of these paths the number of
    [conn.end()] calls is zero, not one. *)
Theorem connection_error_never_ends (toString : Buffer → jsstring)
    (cfg : SshConfig) (req : SftpRequest) (command remotePath : jsstring)
    (data : Buffer) (err : JsError) :
  let sftp_failure := mkMcpError InternalError
                        (js "SFTP connection error: " ++ message err) in
  let ssh_failure := mkMcpError InternalError
                       (js "SSH connection error: " ++ message err) in
  (* connection error before 'ready' *)
  (let c := execSftpCommand cfg req [ev_error err] in
   promise c = rejected sftp_failure ∧ end_count (log c) = 0%nat) ∧
  (* connection error once the session is ready *)
  (let c := execSftpCommand cfg req [ev_ready; ev_error err] in
   promise c = rejected sftp_failure ∧ end_count (log c) = 0%nat) ∧
  (let c := execSshCommand toString cfg command
              [ev_ready; ev_exec None; ev_error err] in
   promise c = rejected ssh_failure ∧ end_count (log c) = 0%nat) ∧
  (* the remote side fails the transfer stream *)
  (let c := execSftpCommand cfg (req_download remotePath)
              [ev_ready; ev_sftp None; ev_stream_error err] in
   promise c = pending ∧ end_count (log c) = 0%nat) ∧
  (let c := execSftpCommand cfg (req_upload data remotePath)
              [ev_ready; ev_sftp None; ev_stream_error err] in
   promise c = pending ∧ end_count (log c) = 0%nat).
Proof. repeat split. Qed.

(** ** List *)

(** The list case of [execSftpCommand] on its own: a listing the remote
    side answers resolves the promise with one text, the lines
    "<filename> (<longname>)" of the returned entries in their order,
    joined by line feeds, after one [readdir] request; a listing the
    remote side rejects is rejected with "List error: <message>". *)
Theorem list_entries_in_order (cfg : SshConfig) (remotePath : jsstring)
    (entries : list DirEntry) (err : JsError) :
  let ok := execSftpCommand cfg (req_list remotePath)
              [ev_ready; ev_sftp None; ev_readdir (inr entries)] in
  let ko := execSftpCommand cfg (req_list remotePath)
              [ev_ready; ev_sftp None; ev_readdir (inl err)] in
  let lines := format_entry <$> entries in
  let failure := mkMcpError InternalError (js "List error: " ++ message err) in
  promise ok = fulfilled (content_text (join LF lines)) ∧
  length lines = length entries ∧
  (∀ i, lines !! i =
        (λ e, filename e ++ js " (" ++ longname e ++ js ")") <$> entries !! i) ∧
  log ok = [conn_connect cfg; conn_sftp; sftp_readdir remotePath; conn_end] ∧
  promise ko = rejected failure ∧
  spec_kind failure = Some TransferError.
Proof.
  repeat split.
  - apply length_fmap.
  - intros i. apply list_lookup_fmap.
Qed.

(** ** Download *)

Lemma sftp_read_chunks req (chunks : list Buffer) p l data :
  fold_left (sftp_step req) (ev_read_data <$> chunks)
    (mkConn p l (sftp_downloading data)) =
  mkConn p l (sftp_downloading (data ++ concat chunks)).
Proof.
  revert data. induction chunks as [|c chunks IH]; intros data; simpl.
  - by rewrite app_nil_r.
  - unfold goto; simpl. rewrite IH. by rewrite <- app_assoc.
Qed.

Lemma download_step_unfulfilled remotePath s ev :
  download_phase (phase s) = true →
  is_fulfilled (promise s) = false →
  ev ≠ ev_read_end →
  download_phase (phase (sftp_step (req_download remotePath) s ev)) = true ∧
  is_fulfilled (promise (sftp_step (req_download remotePath) s ev)) = false.
Proof.
  destruct s as [p l ph]; simpl. intros Hph Hp Hev.
  destruct ev as [|?|[?|]| |?| |?|[?|?]|[?|]|?|?|? ?],
           ph as [| |?|?| |]; try done; simpl; by destruct p.
Qed.

(** A download is never fulfilled before the read stream's 'end' event. *)
Lemma download_fulfilled_needs_end remotePath (events : list Event) s :
  download_phase (phase s) = true →
  is_fulfilled (promise s) = false →
  is_fulfilled (promise (fold_left (sftp_step (req_download remotePath))
                           events s)) = true →
  ev_read_end ∈ events.
Proof.
  revert s. induction events as [|ev events IH]; intros s Hph Hp Hf; simpl in Hf.
  - congruence.
  - assert (Hcase : ev = ev_read_end ∨ ev ≠ ev_read_end).
    { destruct ev; (by left) || (by right). }
    destruct Hcase as [->|Hne]; [left|].
    destruct (download_step_unfulfilled remotePath s ev Hph Hp Hne) as [H1 H2].
    right. by apply (IH _ H1 H2).
Qed.

(** C5. A download resolves with one buffer, the concatenation in arrival
    order of the chunks the read stream emitted, and it resolves at the
    stream's 'end' event: after the chunks alone the promise is still
    pending, and on no sequence of events is it fulfilled before 'end'. *)
Theorem download_concatenates_chunks (cfg : SshConfig) (remotePath : jsstring)
    (chunks : list Buffer) :
  let arrived := [ev_ready; ev_sftp None] ++ (ev_read_data <$> chunks) in
  promise (execSftpCommand cfg (req_download remotePath) arrived) = pending ∧
  promise (execSftpCommand cfg (req_download remotePath)
             (arrived ++ [ev_read_end])) = fulfilled (buffer (concat chunks)) ∧
  (∀ events v,
     promise (execSftpCommand cfg (req_download remotePath) events)
       = fulfilled v → ev_read_end ∈ events).
Proof.
  intros arrived.
  assert (H : execSftpCommand cfg (req_download remotePath) arrived =
              mkConn pending
                [conn_connect cfg; conn_sftp; sftp_createReadStream remotePath]
                (sftp_downloading (concat chunks))).
  { subst arrived. unfold execSftpCommand. rewrite fold_left_app. simpl.
    unfold goto, call; simpl. by rewrite sftp_read_chunks. }
  split; [by rewrite H|]. split.
  - unfold execSftpCommand in *. rewrite fold_left_app, H. done.
  - intros events v Hv.
    apply (download_fulfilled_needs_end remotePath events
             (mkConn pending [conn_connect cfg] sftp_connecting)); [done|done|].
    fold (execSftpCommand cfg (req_download remotePath) events).
    by rewrite Hv.
Qed.

(** ** Tool handlers: credentials *)

(** The two ways [fs.writeFile] ends: the file is created or replaced, or
    an error is thrown and the files are as they were. *)
Lemma writeFile_cases (path : jsstring) (data : Buffer) (w : World) :
  (path ≠ [] ∧
   writeFile path data w =
     (returns tt,
      mkWorld (<[path := file data]> (files w))
        (effects w ++ [fs_writeFile path data]))) ∨
  (∃ err, writeFile path data w =
            (throws (thrown_error err), record (fs_writeFile path data) w)).
Proof.
  unfold writeFile. destruct path as [|c path].
  { right. eexists. reflexivity. }
  cbv beta iota zeta.
  destruct (files w !! _) as [[d| |? ?]|];
    first [ left; split; [done|reflexivity] | right; eexists; reflexivity ].
Qed.

Section Handlers.

Variable toString : Buffer → jsstring.
Variable argvConfig : gmap jsstring jsstring.

Local Abbreviation password_arg := (PASSWORD argvConfig).
Local Abbreviation key_arg := (KEY argvConfig).
Local Abbreviation build := (build_sshConfig toString argvConfig).
Local Abbreviation selected := (auth_selected toString argvConfig).

Lemma build_with_password (w : World) :
  truthy_opt password_arg = true →
  build w =
  (returns (mkSshConfig (HOST argvConfig) (PORT argvConfig) (USER argvConfig)
              password_arg None), w).
Proof.
  intros H. unfold build_sshConfig. by rewrite H.
Qed.

Lemma build_with_key (w : World) (k : jsstring) (data : Buffer) :
  truthy_opt password_arg = false →
  key_arg = Some k → truthy k = true →
  files w !! k = Some (file data) →
  build w =
  (returns (mkSshConfig (HOST argvConfig) (PORT argvConfig) (USER argvConfig)
              None (Some (toString data))),
   record (fs_readFile k) w).
Proof.
  intros Hp Hk Ht Hf. unfold build_sshConfig.
  rewrite Hp, Hk, Ht. unfold bind, readFile_utf8, bind, readFile, ret.
  by rewrite Hf.
Qed.

(** What [build] can do: it never writes, it only (possibly)
    reads the key file, and a configuration it returns follows the
    credential choice. *)
Lemma build_sshConfig_spec (w : World) r w' :
  build w = (r, w') →
  files w' = files w ∧
  (effects w' = effects w ∨
   ∃ k, key_arg = Some k ∧ effects w' = effects w ++ [fs_readFile k]) ∧
  match r with
  | returns cfg => selected cfg
  | throws (thrown_error _) => True
  | _ => False
  end.
Proof.
  unfold build_sshConfig, auth_selected.
  destruct (truthy_opt password_arg) eqn:Hp.
  { intros [= <- <-]. auto. }
  destruct key_arg as [k|] eqn:Hk; simpl.
  2:{ intros [= <- <-]. auto. }
  destruct (truthy k) eqn:Ht.
  2:{ intros [= <- <-]. auto. }
  unfold bind, readFile_utf8, bind, readFile, ret.
  destruct (files w !! k) as [[data| |? ?]|] eqn:Hf; intros [= <- <-]; simpl;
    (split; [done|]); (split; [right; eauto|]); eauto.
Qed.


(** *** Which configurations reach [conn.connect] *)

Lemma connects_ret P {A} (a : A) : connects_with P (ret a).
Proof. intros w r w' [= <- <-] cfg H. by left. Qed.

Lemma connects_throw P {A} (t : Thrown) : connects_with P (@throw A t).
Proof. intros w r w' [= <- <-] cfg H. by left. Qed.

Lemma connects_bind P {A B} (Q : A → Prop) (m : M A) (k : A → M B) :
  connects_with P m → returns_only Q m →
  (∀ a, Q a → connects_with P (k a)) →
  connects_with P (bind m k).
Proof.
  intros Hm HQ Hk w r w'. unfold bind.
  destruct (m w) as [[a|t|] w1] eqn:Hmw.
  - intros Hka cfg Hin.
    destruct (Hk a (HQ _ _ _ Hmw) _ _ _ Hka cfg Hin) as [H|H]; [|by right].
    by apply (Hm _ _ _ Hmw).
  - intros [= <- <-]. by apply (Hm _ _ _ Hmw).
  - intros [= <- <-]. by apply (Hm _ _ _ Hmw).
Qed.

Lemma connects_try_catch P {A} (m : M A) (h : Thrown → M A) :
  connects_with P m → (∀ t, connects_with P (h t)) →
  connects_with P (try_catch m h).
Proof.
  intros Hm Hh w r w'. unfold try_catch.
  destruct (m w) as [[a|t|] w1] eqn:Hmw.
  - intros [= <- <-]. by apply (Hm _ _ _ Hmw).
  - intros Hht cfg Hin.
    destruct (Hh t _ _ _ Hht cfg Hin) as [H|H]; [|by right].
    by apply (Hm _ _ _ Hmw).
  - intros [= <- <-]. by apply (Hm _ _ _ Hmw).
Qed.

Lemma connects_rethrow P {A} prefix t : connects_with P (@rethrow A prefix t).
Proof. destruct t; apply connects_throw. Qed.

Lemma connects_readFile P path : connects_with P (readFile path).
Proof.
  intros w r w'. unfold readFile.
  destruct (files w !! path) as [[d| |? ?]|]; intros [= <- <-] cfg;
    simpl; rewrite elem_of_app, list_elem_of_singleton;
    (intros [H|H]; [by left|done]).
Qed.

Lemma connects_writeFile P path data : connects_with P (writeFile path data).
Proof.
  intros w r w'.
  destruct (writeFile_cases path data w) as [[_ ->]|[err ->]];
    intros [= <- <-] cfg;
    simpl; rewrite elem_of_app, list_elem_of_singleton;
    (intros [H|H]; [by left|done]).
Qed.

Lemma on_connection_not_connect (l : list Action) cfg :
  forallb on_connection l = true → conn_connect cfg ∉ l.
Proof.
  intros H Hin. apply list_elem_of_In in Hin.
  by apply (proj1 (forallb_forall _ _) H) in Hin.
Qed.

Lemma connects_await_sftp (P : SshConfig → Prop) cfg req events :
  P cfg → connects_with P (await_conn (execSftpCommand cfg req events)).
Proof.
  intros HP w r w' Hrun cfg'. unfold await_conn in Hrun.
  destruct (execSftpCommand_log cfg req events) as (extra & Hlog & Hextra).
  assert (effects w' = effects w ++ conn_connect cfg :: extra) as ->.
  { rewrite <- Hlog.
    destruct (promise (execSftpCommand cfg req events));
      by injection Hrun as <- <-. }
  rewrite elem_of_app, elem_of_cons. intros [H|[H|H]]; [by left| |].
  - injection H as ->. by right.
  - by apply on_connection_not_connect in H.
Qed.

Lemma connects_await_ssh (P : SshConfig → Prop) cfg command events :
  P cfg →
  connects_with P (await_conn (execSshCommand toString cfg command events)).
Proof.
  intros HP w r w' Hrun cfg'. unfold await_conn in Hrun.
  destruct (execSshCommand_log toString cfg command events)
    as (extra & Hlog & Hextra).
  assert (effects w' = effects w ++ conn_connect cfg :: extra) as ->.
  { rewrite <- Hlog.
    destruct (promise (execSshCommand toString cfg command events));
      by injection Hrun as <- <-. }
  rewrite elem_of_app, elem_of_cons. intros [H|[H|H]]; [by left| |].
  - injection H as ->. by right.
  - by apply on_connection_not_connect in H.
Qed.

Lemma connects_build P : connects_with P build.
Proof.
  intros w r w' Hrun cfg.
  destruct (build_sshConfig_spec _ _ _ Hrun) as (_ & [->|(k & _ & ->)] & _).
  - by left.
  - rewrite elem_of_app, list_elem_of_singleton. intros [H|H]; [by left|done].
Qed.

Lemma build_returns_selected : returns_only selected build.
Proof.
  intros w cfg w' Hrun.
  by destruct (build_sshConfig_spec _ _ _ Hrun) as (_ & _ & H).
Qed.

Lemma connects_sftp_upload localPath remotePath events :
  connects_with selected
    (sftp_upload toString argvConfig localPath remotePath events).
Proof.
  apply connects_try_catch; [|intros; apply connects_rethrow].
  apply (connects_bind _ (λ _, True)); [apply connects_readFile|done|].
  intros fileData _.
  apply (connects_bind _ selected);
    [apply connects_build|apply build_returns_selected|].
  intros cfg Hcfg.
  apply (connects_bind _ (λ _, True)); [by apply connects_await_sftp|done|].
  intros; apply connects_ret.
Qed.

Lemma connects_sftp_download remotePath localPath events :
  connects_with selected
    (sftp_download toString argvConfig remotePath localPath events).
Proof.
  apply connects_try_catch; [|intros; apply connects_rethrow].
  apply (connects_bind _ selected);
    [apply connects_build|apply build_returns_selected|].
  intros cfg Hcfg.
  apply (connects_bind _ (λ _, True)); [by apply connects_await_sftp|done|].
  intros result _.
  apply (connects_bind _ (λ _, True)); [|done|intros; apply connects_ret].
  destruct result; [apply connects_throw|apply connects_writeFile].
Qed.

Lemma connects_sftp_list remotePath events :
  connects_with selected (sftp_list toString argvConfig remotePath events).
Proof.
  apply connects_try_catch; [|intros; apply connects_rethrow].
  apply (connects_bind _ selected);
    [apply connects_build|apply build_returns_selected|].
  intros cfg Hcfg.
  apply (connects_bind _ (λ _, True)); [by apply connects_await_sftp|done|].
  intros [text|data] _; [apply connects_throw|apply connects_ret].
Qed.

Lemma connects_exec command events :
  connects_with selected (exec toString argvConfig command events).
Proof.
  unfold exec. destruct (negb (truthy (trim command))); [apply connects_throw|].
  apply connects_try_catch; [|intros; apply connects_rethrow].
  apply (connects_bind _ selected);
    [apply connects_build|apply build_returns_selected|].
  intros cfg Hcfg. by apply connects_await_ssh.
Qed.

Lemma auth_selected_count cfg :
  selected cfg →
  (auth_count cfg ≤ 1)%nat ∧
  (truthy_opt password_arg || truthy_opt key_arg = true → auth_count cfg = 1%nat).
Proof.
  unfold selected, auth_count.
  destruct (truthy_opt password_arg) eqn:Hp.
  - intros [-> ->]. destruct password_arg; [simpl; auto with lia|done].
  - destruct (truthy_opt key_arg).
    + intros [-> [data ->]]. simpl; auto with lia.
    + intros [-> ->]. simpl. split; [lia|done].
Qed.

End Handlers.

(** C6. The credential of a session.  With a (non-empty) password
    configured the handlers connect with the password and without a
    private key, whether or not a key is configured (the key file is not
    even read); with only a key configured they connect with the decoded
    key file and without a password.  Every configuration that any of the
    four tools hands to [conn.connect] carries at most one credential,
    never both, and exactly one whenever a password or a key is
    configured. *)
Theorem one_auth_variant (toString : Buffer → jsstring)
    (argvConfig : gmap jsstring jsstring) :
  let base := mkSshConfig (HOST argvConfig) (PORT argvConfig) (USER argvConfig) in
  (∀ w, truthy_opt (PASSWORD argvConfig) = true →
     build_sshConfig toString argvConfig w =
       (returns (base (PASSWORD argvConfig) None), w)) ∧
  (∀ w k data,
     truthy_opt (PASSWORD argvConfig) = false →
     KEY argvConfig = Some k → truthy k = true →
     files w !! k = Some (file data) →
     build_sshConfig toString argvConfig w =
       (returns (base None (Some (toString data))), record (fs_readFile k) w)) ∧
  (∀ call events w cfg,
     conn_connect cfg ∈ effects (run_tool toString argvConfig call events w).2 →
     conn_connect cfg ∉ effects w →
     (password cfg = None ∨ privateKey cfg = None) ∧
     (auth_count cfg ≤ 1)%nat ∧
     (truthy_opt (PASSWORD argvConfig) || truthy_opt (KEY argvConfig) = true →
        auth_count cfg = 1%nat) ∧
     (truthy_opt (PASSWORD argvConfig) = true →
        password cfg = PASSWORD argvConfig ∧ privateKey cfg = None) ∧
     (truthy_opt (PASSWORD argvConfig) = false → password cfg = None)).
Proof.
  intros base. split; [apply build_with_password|].
  split; [apply build_with_key|].
  intros call events w cfg Hin Hnew.
  assert (Hsel : auth_selected toString argvConfig cfg).
  { destruct (run_tool toString argvConfig call events w) as [r w'] eqn:Hrun.
    assert (Hc : connects_with (auth_selected toString argvConfig)
                   (run_tool toString argvConfig call events)).
    { destruct call; simpl.
      - apply connects_sftp_upload.
      - apply connects_sftp_download.
      - apply connects_sftp_list.
      - apply connects_exec. }
    destruct (Hc _ _ _ Hrun cfg Hin); done. }
  destruct (auth_selected_count toString argvConfig cfg Hsel) as [Hle Heq].
  unfold auth_selected in Hsel.
  destruct (truthy_opt (PASSWORD argvConfig)) eqn:Hp.
  - destruct Hsel as [H1 H2]. rewrite H2. repeat split; auto; done.
  - assert (password cfg = None) as Hpw.
    { by destruct (truthy_opt (KEY argvConfig)), Hsel. }
    rewrite Hpw. repeat split; auto; done.
Qed.

(** Both credentials configured: the exec tool connects with the password
    alone. *)
Example both_configured_uses_password :
  let argv : gmap jsstring jsstring :=
    <[js "password" := js "pw"]> (<[js "key" := js "/id"]> ∅) in
  effects (exec latin1 argv (js "ls") [] (mkWorld ∅ [])).2 =
  [conn_connect (mkSshConfig None (finite 22) None (Some (js "pw")) None)].
Proof. vm_compute. reflexivity. Qed.

(** ** Tool handlers: local files *)

Lemma write_count_app (l1 l2 : list Action) :
  write_count (l1 ++ l2) = (write_count l1 + write_count l2)%nat.
Proof. unfold write_count. by rewrite List.filter_app, length_app. Qed.

Lemma on_connection_no_write (l : list Action) :
  forallb on_connection l = true → write_count l = 0%nat.
Proof.
  induction l as [|a l IH]; simpl; [done|].
  intros [Ha Hl]%andb_prop. unfold write_count in *. simpl.
  destruct a; try done; by apply IH.
Qed.

Lemma execSftpCommand_no_write cfg req events :
  write_count (log (execSftpCommand cfg req events)) = 0%nat.
Proof.
  destruct (execSftpCommand_log cfg req events) as (extra & -> & H).
  change (conn_connect cfg :: extra) with ([conn_connect cfg] ++ extra).
  by rewrite write_count_app, (on_connection_no_write _ H).
Qed.

Lemma build_sshConfig_no_write toString argvConfig w r w' :
  build_sshConfig toString argvConfig w = (r, w') →
  files w' = files w ∧ write_count (effects w') = write_count (effects w).
Proof.
  intros H.
  destruct (build_sshConfig_spec _ _ _ _ _ H) as (Hf & [->|(k & _ & ->)] & _);
    split; try done.
  rewrite write_count_app. simpl. unfold write_count at 2. simpl. lia.
Qed.

(** C9. The download handler writes [localPath] only with the downloaded
    buffer in hand: a change of the local files or a new [fs.writeFile]
    call means that the download promise was fulfilled with a buffer, and
    then the write of exactly that buffer to [localPath] is the last
    call, after everything done on the connection.  When the credentials
    cannot be built, or the download promise is rejected (connection or
    transfer error), stays pending, or is fulfilled with something that is
    not a buffer, the handler does not return normally, the local files
    are unchanged and no [fs.writeFile] call is made. *)
Theorem download_writes_only_a_buffer (toString : Buffer → jsstring)
    (argvConfig : gmap jsstring jsstring) (remotePath localPath : jsstring)
    (events : list Event) (w : World) :
  let r := sftp_download toString argvConfig remotePath localPath events w in
  let download cfg := execSftpCommand cfg (req_download remotePath) events in
  let untouched :=
    files r.2 = files w ∧
    write_count (effects r.2) = write_count (effects w) ∧
    ∀ v, r.1 ≠ returns v in
  (files r.2 ≠ files w ∨ write_count (effects r.2) ≠ write_count (effects w) →
   ∃ cfg w1 data,
     build_sshConfig toString argvConfig w = (returns cfg, w1) ∧
     promise (download cfg) = fulfilled (buffer data) ∧
     effects r.2 =
       effects w1 ++ log (download cfg) ++ [fs_writeFile localPath data]) ∧
  (∀ t w1, build_sshConfig toString argvConfig w = (throws t, w1) →
     untouched) ∧
  (∀ cfg w1, build_sshConfig toString argvConfig w = (returns cfg, w1) →
     (∀ data, promise (download cfg) ≠ fulfilled (buffer data)) →
     untouched).
Proof.
  intros r download untouched.
  assert (Hfail_build : ∀ t w1,
            build_sshConfig toString argvConfig w = (throws t, w1) → untouched).
  { intros t w1 Hb. subst untouched r.
    destruct (build_sshConfig_no_write _ _ _ _ _ Hb) as [Hf Hw].
    unfold sftp_download, try_catch, bind. rewrite Hb.
    destruct t as [e|e]; simpl; by rewrite Hf, Hw. }
  assert (Hfail_dl : ∀ cfg w1,
            build_sshConfig toString argvConfig w = (returns cfg, w1) →
            (∀ data, promise (download cfg) ≠ fulfilled (buffer data)) →
            untouched).
  { intros cfg w1 Hb Hnot. subst untouched r.
    destruct (build_sshConfig_no_write _ _ _ _ _ Hb) as [Hf Hw].
    unfold sftp_download, try_catch, bind. rewrite Hb.
    unfold await_conn. fold (download cfg).
    pose proof (execSftpCommand_no_write cfg (req_download remotePath) events)
      as Hlog. fold (download cfg) in Hlog.
    destruct (promise (download cfg)) as [|[text|data]|e] eqn:Hp; simpl;
      rewrite ?write_count_app, ?Hlog, ?Hf, ?Hw;
      try (repeat split; (lia || done)).
    by destruct (Hnot data). }
  split; [|by split].
  intros Hchanged.
  destruct (build_sshConfig toString argvConfig w) as [[cfg|t|] w1] eqn:Hb.
  - destruct (promise (download cfg)) as [|[text|data]|e] eqn:Hp;
      try (destruct (Hfail_dl cfg w1 eq_refl) as (H1 & H2 & _);
           [by rewrite Hp|by destruct Hchanged]).
    exists cfg, w1, data. split; [done|]. split; [done|].
    subst r. unfold sftp_download, try_catch, bind. rewrite Hb.
    unfold await_conn. fold (download cfg). rewrite Hp.
    destruct (writeFile_cases localPath data
                (mkWorld (files w1)
                   (effects w1 ++ log (download cfg)))) as [[_ ->]|[err ->]];
      simpl; by rewrite <- app_assoc.
  - destruct (Hfail_build t w1 eq_refl) as (H1 & H2 & _).
    by destruct Hchanged.
  - by destruct (build_sshConfig_spec _ _ _ _ _ Hb) as (_ & _ & ?).
Qed.

(** A download that completes: the file is written after the connection
    was closed. *)
Example download_then_write :
  let r := sftp_download latin1 (<[js "password" := js "pw"]> ∅)
             (js "/remote") (js "/local")
             [ev_ready; ev_sftp None;
              ev_read_data (list_byte_of_string "ab");
              ev_read_data (list_byte_of_string "c"); ev_read_end]
             (mkWorld ∅ []) in
  r.1 = returns (content_text (js "File downloaded to /local")) ∧
  files r.2 !! js "/local" = Some (file (list_byte_of_string "abc")) ∧
  effects r.2 =
    [conn_connect (mkSshConfig None (finite 22) None (Some (js "pw")) None);
     conn_sftp; sftp_createReadStream (js "/remote"); conn_end;
     fs_writeFile (js "/local") (list_byte_of_string "abc")].
Proof. vm_compute. done. Qed.

(** A download whose connection fails: nothing is written. *)
Example download_connection_error :
  let r := sftp_download latin1 (<[js "password" := js "pw"]> ∅)
             (js "/remote") (js "/local")
             [ev_error (mkError (js "Error") (js "timed out"))]
             (mkWorld ∅ []) in
  r.1 = throws (thrown_mcp (mkMcpError InternalError
                              (js "SFTP connection error: timed out"))) ∧
  files r.2 = ∅ ∧
  effects r.2 =
    [conn_connect (mkSshConfig None (finite 22) None (Some (js "pw")) None)].
Proof. vm_compute. done. Qed.

Lemma try_catch_bind_returns {A B} (m : M A) (k : A → M B) h w a w1 :
  m w = (returns a, w1) → try_catch (bind m k) h w = try_catch (k a) h w1.
Proof. intros H. unfold try_catch, bind. by rewrite H. Qed.

Lemma try_catch_bind_throws {A B} (m : M A) (k : A → M B) h w t w1 :
  m w = (throws t, w1) → try_catch (bind m k) h w = h t w1.
Proof. intros H. unfold try_catch, bind. by rewrite H. Qed.

Lemma rethrow_effects {A} prefix t w :
  effects (@rethrow A prefix t w).2 = effects w.
Proof. by destruct t. Qed.

(** Awaiting the connection's promise and finishing the handler adds the
    calls made on the connection to the log, whatever the promise holds. *)
Lemma await_then_effects {P} (c : Conn P) (k : Value → M Value) prefix w :
  (∀ v w', effects (k v w').2 = effects w') →
  effects (try_catch (bind (await_conn c) k) (rethrow prefix) w).2 =
  effects w ++ log c.
Proof.
  intros Hk. unfold try_catch, bind, await_conn.
  destruct (promise c) as [|v|e]; simpl; [done| |done].
  destruct (k v _) as [[?|?|] ?] eqn:Hkv;
    pose proof (Hk v (mkWorld (files w) (effects w ++ log c))) as H;
    rewrite Hkv in H; simpl in H; rewrite ?rethrow_effects; done.
Qed.

Lemma readFile_cases path w :
  (∃ data, files w !! path = Some (file data) ∧
           readFile path w = (returns data, record (fs_readFile path) w)) ∨
  (∃ err, (∀ data, files w !! path ≠ Some (file data)) ∧
          truthy (message err) = true ∧
          readFile path w =
            (throws (thrown_error err), record (fs_readFile path) w)).
Proof.
  unfold readFile. destruct (files w !! path) as [[data| |c d]|].
  - left. eauto.
  - right. exists (EISDIR (js "read")). done.
  - right. exists (open_error c d path). split; [done|].
    split; [by destruct c|done].
  - right. exists (ENOENT path). done.
Qed.

(** C10. The upload handler reads the local file first: the
    [fs.readFile(localPath)] call is the first call of the invocation, so
    every [conn.connect] comes after it.  When the read fails the handler
    throws "Upload failed: ..." with the read error's message and makes no
    other call (no connection is attempted); when it succeeds, the whole
    content of the file is the data handed to the upload. *)
Theorem upload_reads_file_first (toString : Buffer → jsstring)
    (argvConfig : gmap jsstring jsstring) (localPath remotePath : jsstring)
    (events : list Event) (w : World) :
  let r := sftp_upload toString argvConfig localPath remotePath events w in
  let w0 := record (fs_readFile localPath) w in
  (∃ rest, effects r.2 = effects w ++ fs_readFile localPath :: rest) ∧
  ((∀ data, files w !! localPath ≠ Some (file data)) →
   ∃ err,
     readFile localPath w = (throws (thrown_error err), w0) ∧
     r.1 = throws (thrown_mcp (mkMcpError InternalError
                                 (js "Upload failed: " ++ message err))) ∧
     effects r.2 = effects w ++ [fs_readFile localPath] ∧
     connect_count (effects r.2) = connect_count (effects w)) ∧
  (∀ data cfg w1,
     files w !! localPath = Some (file data) →
     build_sshConfig toString argvConfig w0 = (returns cfg, w1) →
     effects r.2 =
       effects w1 ++ log (execSftpCommand cfg
                            (req_upload data remotePath) events)).
Proof.
  intros r w0. subst r. unfold sftp_upload.
  destruct (readFile_cases localPath w)
    as [(data & Hf & Hread)|(err & Hno & Hmsg & Hread)]; fold w0 in Hread.
  - (* the file is read *)
    rewrite (try_catch_bind_returns _ _ _ _ _ _ Hread).
    destruct (build_sshConfig toString argvConfig w0) as [[cfg|t|] w1] eqn:Hb.
    + rewrite (try_catch_bind_returns _ _ _ _ _ _ Hb).
      rewrite await_then_effects by done.
      split; [|split].
      * destruct (build_sshConfig_spec _ _ _ _ _ Hb)
          as (_ & [->|(k & _ & ->)] & _); simpl; rewrite <- ?app_assoc; eauto.
      * intros Hnone. by destruct (Hnone data).
      * intros data' cfg' w1' Hf'. rewrite Hf in Hf'.
        injection Hf' as <-. by intros [= <- <-].
    + rewrite (try_catch_bind_throws _ _ _ _ _ _ Hb), rethrow_effects.
      split; [|split].
      * destruct (build_sshConfig_spec _ _ _ _ _ Hb)
          as (_ & [->|(k & _ & ->)] & _); simpl; rewrite <- ?app_assoc; eauto.
      * intros Hnone. by destruct (Hnone data).
      * intros data' cfg' w1' _ [=].
    + by destruct (build_sshConfig_spec _ _ _ _ _ Hb) as (_ & _ & ?).
  - (* the read fails *)
    rewrite (try_catch_bind_throws _ _ _ _ _ _ Hread). simpl.
    unfold message_or_err. rewrite Hmsg.
    split; [by exists []|]. split.
    + intros _. exists err. repeat split; [done|].
      rewrite connect_count_app. unfold connect_count at 2. simpl. lia.
    + intros data cfg w1 Hf. by destruct (Hno data).
Qed.

(** An upload of a missing file: one read, no connection. *)
Example upload_missing_file :
  let r := sftp_upload latin1 (<[js "password" := js "pw"]> ∅)
             (js "/nope") (js "/remote") [ev_ready; ev_sftp None; ev_write_close]
             (mkWorld ∅ []) in
  r.1 = throws (thrown_mcp (mkMcpError InternalError
          (js "Upload failed: ENOENT: no such file or directory, open '/nope'"))) ∧
  effects r.2 = [fs_readFile (js "/nope")].
Proof. vm_compute. done. Qed.

(** An upload that completes: read, connect, write the whole content. *)
Example upload_whole_file :
  let r := sftp_upload latin1 (<[js "password" := js "pw"]> ∅)
             (js "/f") (js "/remote") [ev_ready; ev_sftp None; ev_write_close]
             (mkWorld {[ js "/f" := file (list_byte_of_string "data") ]} []) in
  r.1 = returns (content_text (js "File uploaded to /remote")) ∧
  effects r.2 =
    [fs_readFile (js "/f");
     conn_connect (mkSshConfig None (finite 22) None (Some (js "pw")) None);
     conn_sftp; sftp_createWriteStream (js "/remote");
     writeStream_write (list_byte_of_string "data"); writeStream_end; conn_end].
Proof. vm_compute. done. Qed.

(** ** Startup: configuration validation *)

Example port_70000_accepted :
  config_port_70000 !! js "port" = Some (js "70000") ∧
  spec_port_well_formed (js "70000") = false ∧
  validateConfig config_port_70000 = None ∧
  PORT config_port_70000 = finite 70000 ∧
  startup [js "--host=1.2.3.4"; js "--port=70000"; js "--user=root"] =
    serving config_port_70000.
Proof. vm_compute. done. Qed.

(** C8, as stated, does not hold: a supplied port outside 1..65535 does
    not make validation fail. *)
Lemma port_range_not_validated :
  ¬ (∀ (config : gmap jsstring jsstring) (p : jsstring),
       config !! js "port" = Some p →
       spec_port_well_formed p = false →
       validateConfig config ≠ None).
Proof.
  intros H.
  apply (H config_port_70000 (js "70000")); by vm_compute.
Qed.

(** C8, amended.  Validation fails, and the process does not start
    serving, exactly when host is missing or empty, user is missing or
    empty, or a supplied non-empty port is not a numeric literal
    ([Number(port)] is NaN); neither the range nor the integrality of the
    port is checked.  When no port (or an empty one) is supplied, the
    port is 22. *)
Theorem validateConfig_checks (config : gmap jsstring jsstring)
    (args : list jsstring) :
  (validateConfig config ≠ None ↔
     truthy_opt (config !! js "host") = false ∨
     truthy_opt (config !! js "user") = false ∨
     ∃ p, config !! js "port" = Some p ∧ truthy p = true ∧
          Number_isNaN p = true) ∧
  ((∃ e, startup args = startup_failed e) ↔
     validateConfig (parseArgv args) ≠ None) ∧
  (truthy_opt (config !! js "port") = false → PORT config = finite 22).
Proof.
  split; [|split].
  - unfold validateConfig, config_errors.
    destruct (truthy_opt (config !! js "host")) eqn:Hh;
      [|split; [auto|done]].
    destruct (truthy_opt (config !! js "user")) eqn:Hu;
      [|split; [auto|done]].
    destruct (config !! js "port") as [p|] eqn:Hp; simpl.
    + destruct (truthy p) eqn:Ht, (Number_isNaN p) eqn:Hn; simpl;
        (split; [intros H|intros [H|[H|(p' & [= <-] & H1 & H2)]]]);
        try done; try congruence.
      right; right. eauto.
    + split; [done|]. by intros [H|[H|(p' & H & _)]].
  - unfold startup. destruct (validateConfig (parseArgv args)) as [e|].
    + split; [done|]. eauto.
    + split; [by intros [e H]|done].
  - unfold PORT. destruct (config !! js "port") as [p|]; simpl; [|done].
    by intros ->.
Qed.

(** ** What the handlers make of the promise *)

(** A rejection of the connection's promise leaves the handler as it is:
    the [catch] block rethrows an [McpError] unchanged. *)
Lemma rejection_passes_catch {P} (c : Conn P) (k : Value → M Value)
    prefix e w :
  promise c = rejected e →
  try_catch (bind (await_conn c) k) (rethrow prefix) w =
  (throws (thrown_mcp e), mkWorld (files w) (effects w ++ log c)).
Proof. intros H. unfold try_catch, bind, await_conn. by rewrite H. Qed.

(** The list handler treats the awaited tool result as the array of
    entries: whenever the listing itself succeeded, the tool fails. *)
Lemma sftp_list_fails_on_success toString argvConfig remotePath events w
    cfg w1 text :
  build_sshConfig toString argvConfig w = (returns cfg, w1) →
  promise (execSftpCommand cfg (req_list remotePath) events)
    = fulfilled (content_text text) →
  (sftp_list toString argvConfig remotePath events w).1 =
  throws (thrown_mcp (mkMcpError InternalError
                        (js "List failed: list.map is not a function"))).
Proof.
  intros Hb Hp. unfold sftp_list.
  rewrite (try_catch_bind_returns _ _ _ _ _ _ Hb).
  unfold try_catch, bind, await_conn. by rewrite Hp.
Qed.

(** C4. What the list operation makes of a listing: for every sequence
    of entries that the remote side returns, [execSftpCommand] resolves
    its promise with one joined text, not with the sequence of entries,
    and the sftp_list tool, which treats the awaited value as that
    sequence and calls [map] on it, throws "List failed: list.map is not
    a function" after the connection was ended: no listing that succeeds
    remotely reaches the caller. *)
Theorem list_tool_loses_the_entries (toString : Buffer → jsstring)
    (argvConfig : gmap jsstring jsstring) (remotePath : jsstring)
    (entries : list DirEntry) (w w1 : World) (cfg : SshConfig) :
  build_sshConfig toString argvConfig w = (returns cfg, w1) →
  let events := [ev_ready; ev_sftp None; ev_readdir (inr entries)] in
  promise (execSftpCommand cfg (req_list remotePath) events)
    = fulfilled (content_text (join LF (format_entry <$> entries))) ∧
  sftp_list toString argvConfig remotePath events w =
    (throws (thrown_mcp (mkMcpError InternalError
                           (js "List failed: list.map is not a function"))),
     mkWorld (files w1)
       (effects w1 ++
        [conn_connect cfg; conn_sftp; sftp_readdir remotePath; conn_end])).
Proof.
  intros Hb events. split; [reflexivity|].
  unfold sftp_list. by rewrite (try_catch_bind_returns _ _ _ _ _ _ Hb).
Qed.

Lemma list_tool_loses_the_entries_witness :
  sftp_list latin1 (<[js "password" := js "pw"]> ∅) (js "/")
    [ev_ready; ev_sftp None;
     ev_readdir (inr [mkDirEntry (js "a") (js "-rw- a");
                      mkDirEntry (js "b") (js "drw- b")])]
    (mkWorld ∅ []) =
  (throws (thrown_mcp (mkMcpError InternalError
                         (js "List failed: list.map is not a function"))),
   mkWorld ∅
     ([] ++
      [conn_connect (mkSshConfig None (finite 22) None (Some (js "pw")) None);
       conn_sftp; sftp_readdir (js "/"); conn_end])).
Proof.
  apply (list_tool_loses_the_entries latin1 (<[js "password" := js "pw"]> ∅)
           (js "/")
           [mkDirEntry (js "a") (js "-rw- a"); mkDirEntry (js "b") (js "drw- b")]
           (mkWorld ∅ []) (mkWorld ∅ [])
           (mkSshConfig None (finite 22) None (Some (js "pw")) None)).
  reflexivity.
Defined.

(** The text a listing of two entries resolves with. *)
Example listing_text :
  promise (execSftpCommand (mkSshConfig None (finite 22) None None None)
             (req_list (js "/"))
             [ev_ready; ev_sftp None;
              ev_readdir (inr [mkDirEntry (js "a") (js "-rw- a");
                               mkDirEntry (js "b") (js "drw- b")])])
  = fulfilled (content_text (js "a (-rw- a)" ++ LF ++ js "b (drw- b)")).
Proof. reflexivity. Qed.

(** The exit code in the message of a failed command. *)
Example exit_code_text :
  CodeValue_toString (code_number 127) = js "127" ∧
  CodeValue_toString (code_number (-1)) = js "-1" ∧
  CodeValue_toString code_null = js "null" ∧
  CodeValue_toString code_undefined = js "undefined" ∧
  promise (execSshCommand latin1 (mkSshConfig None (finite 22) None None None)
             (js "false")
             [ev_ready; ev_exec None;
              ev_stderr_data (list_byte_of_string "no");
              ev_stream_close (code_number 127) None])
  = rejected (mkMcpError InternalError
                (js "Error (code 127):" ++ LF ++ js "no")).
Proof. vm_compute. done. Qed.

(** The exec tool ends as the promise of [execSshCommand] does: fulfilled
    with its value, rejected with its [McpError] unchanged, or never
    settled. *)
Lemma exec_tool_outcome toString argvConfig command events w cfg w1 :
  negb (truthy (trim command)) = false →
  build_sshConfig toString argvConfig w = (returns cfg, w1) →
  exec toString argvConfig command events w =
  await_conn (execSshCommand toString cfg command events) w1.
Proof.
  intros Hcmd Hb. unfold exec. rewrite Hcmd.
  rewrite (try_catch_bind_returns _ _ _ _ _ _ Hb).
  unfold try_catch, await_conn.
  by destruct (promise (execSshCommand toString cfg command events)).
Qed.

(** * Further properties of the code *)

Lemma starts_with_app (p s : jsstring) : starts_with p (p ++ s) = true.
Proof.
  induction p as [|a p IH]; simpl; [done|].
  by rewrite N.eqb_refl, IH.
Qed.

(** ** Command-line arguments *)

Lemma split_at_equals_Some (s k v : jsstring) :
  split_at_equals s = Some (k, v) ↔ s = k ++ (61 :: v) ∧ (61 ∉ k).
Proof.
  revert k. induction s as [|c s IH]; intros k; simpl.
  - split; [done|]. intros [H _]. by destruct k.
  - destruct (N.eqb_spec c 61) as [->|Hc].
    + split.
      * intros [= <- <-]. split; [done|]. apply not_elem_of_nil.
      * intros [H Hk]. destruct k as [|c' k]; simpl in H.
        -- by injection H as ->.
        -- injection H as <- _. destruct Hk. left.
    + destruct (split_at_equals s) as [[k' v']|] eqn:Hs.
      * split.
        -- intros [= <- <-]. destruct (proj1 (IH k') eq_refl) as [-> Hk'].
           split; [done|]. by apply not_elem_of_cons.
        -- intros [H Hk]. destruct k as [|c' k]; simpl in H.
           ++ injection H as -> _. done.
           ++ injection H as <- H. apply not_elem_of_cons in Hk as [_ Hk].
              assert (Some (k', v') = Some (k, v)) as [= -> ->]; [|done].
              by apply IH.
      * split; [done|]. intros [H Hk]. destruct k as [|c' k]; simpl in H.
        -- injection H as -> _. done.
        -- injection H as <- H. apply not_elem_of_cons in Hk as [_ Hk].
           assert (None = Some (k, v)); [by apply IH|done].
Qed.

Lemma match_arg_Some (arg k v : jsstring) :
  match_arg arg = Some (k, v) ↔
  arg = js "--" ++ k ++ (61 :: v) ∧ k ≠ [] ∧ (61 ∉ k) ∧
  forallb (λ c, negb (is_line_terminator c)) v = true.
Proof.
  split.
  - intros H.
    assert (∃ r, arg = 45 :: 45 :: r) as [r ->].
    { destruct arg as [|c [|d r]]; [done| |].
      - exfalso. destruct c as [|p]; [done|].
        do 6 (destruct p as [p|p|]; try done).
      - destruct c as [|p]; [done|].
        do 6 (destruct p as [p|p|]; try done).
        destruct d as [|p]; [done|].
        do 6 (destruct p as [p|p|]; try done).
        by exists r. }
    change (match_arg (45 :: 45 :: r)) with
      (match split_at_equals r with
       | Some (k, v) =>
           if truthy k && forallb (λ c, negb (is_line_terminator c)) v
           then Some (k, v) else None
       | None => None
       end) in H.
    destruct (split_at_equals r) as [[k' v']|] eqn:Hs; [|done].
    destruct (truthy k') eqn:Hk; [|done].
    destruct (forallb _ v') eqn:Hv; [|done].
    injection H as <- <-. apply split_at_equals_Some in Hs as [-> Hk'].
    repeat split; try done. by destruct k'.
  - intros (-> & Hk & Hnot & Hv).
    change (js "--" ++ k ++ (61 :: v)) with (45 :: 45 :: (k ++ (61 :: v))).
    change (match_arg (45 :: 45 :: (k ++ (61 :: v)))) with
      (match split_at_equals (k ++ (61 :: v)) with
       | Some (k, v) =>
           if truthy k && forallb (λ c, negb (is_line_terminator c)) v
           then Some (k, v) else None
       | None => None
       end).
    rewrite (proj2 (split_at_equals_Some _ k v)) by done.
    rewrite Hv. by destruct k.
Qed.

Lemma parseArgv_snoc (args : list jsstring) (a : jsstring) :
  parseArgv (args ++ [a]) =
  match match_arg a with
  | Some (k, v) => assign k v (parseArgv args)
  | None => parseArgv args
  end.
Proof. unfold parseArgv. by rewrite fold_left_app. Qed.

Lemma lookup_assign_eq (k v : jsstring) (config : gmap jsstring jsstring) :
  k ≠ js "__proto__" → assign k v config !! k = Some v.
Proof.
  intros Hk. unfold assign. rewrite bool_decide_eq_false_2 by done.
  apply lookup_insert_eq.
Qed.

Lemma lookup_assign_ne (k k' v : jsstring) (config : gmap jsstring jsstring) :
  k ≠ k' → assign k v config !! k' = config !! k'.
Proof.
  intros Hk. unfold assign. case_bool_decide; [done|].
  by apply lookup_insert_ne.
Qed.

(** The name [__proto__] is never stored. *)
Lemma parseArgv_no_proto (args : list jsstring) :
  parseArgv args !! js "__proto__" = None.
Proof.
  induction args as [|a args IH] using rev_ind; [done|].
  rewrite parseArgv_snoc. destruct (match_arg a) as [[k v]|]; [|done].
  unfold assign. case_bool_decide as Hk; [done|].
  by rewrite lookup_insert_ne.
Qed.

(** X1. [parseArgv]: for a repeated name the last occurrence wins.  A
    well-formed argument [--k=v] (non-empty name without an equals sign
    and other than [__proto__], value without line terminators, possibly
    containing equals signs) determines [config.k] unless a later argument
    sets the same name. *)
Theorem parseArgv_last_wins (before after : list jsstring) (k v : jsstring) :
  k ≠ [] → 61 ∉ k → k ≠ js "__proto__" →
  forallb (λ c, negb (is_line_terminator c)) v = true →
  (∀ v', js "--" ++ k ++ (61 :: v') ∉ after) →
  parseArgv (before ++ (js "--" ++ k ++ (61 :: v)) :: after) !! k = Some v.
Proof.
  intros Hk Heq Hproto Hv.
  induction after as [|a after IH] using rev_ind; intros Hlater.
  - rewrite parseArgv_snoc.
    rewrite (proj2 (match_arg_Some _ k v)) by done.
    by apply lookup_assign_eq.
  - rewrite app_comm_cons, app_assoc, parseArgv_snoc.
    assert (Hprev : ∀ v', js "--" ++ k ++ (61 :: v') ∉ after).
    { intros v' Hin. apply (Hlater v'). apply elem_of_app. by left. }
    destruct (match_arg a) as [[k' v']|] eqn:Ha; [|by apply IH].
    apply match_arg_Some in Ha as (-> & _ & _ & _).
    rewrite lookup_assign_ne; [by apply IH|].
    intros ->. apply (Hlater v'). apply elem_of_app. right. left.
Qed.

Lemma parseArgv_last_wins_witness :
  parseArgv [js "--port=1"; js "--port=a=b"; js "-y"] !! js "port"
  = Some (js "a=b").
Proof.
  apply (parseArgv_last_wins [js "--port=1"] [js "-y"] (js "port") (js "a=b"));
    [done| |done|done|].
  - vm_compute. intros H. repeat (apply elem_of_cons in H as [H|H]; [done|]).
    by apply elem_of_nil in H.
  - intros v' H. apply list_elem_of_singleton in H. done.
Defined.

(** X2. [parseArgv]: an argument that does not start with two dashes, or
    that holds no equals sign, is skipped: the configuration is the one
    parsed from the other arguments. *)
Theorem parseArgv_skips (before after : list jsstring) (arg : jsstring) :
  starts_with (js "--") arg = false ∨ 61 ∉ arg →
  parseArgv (before ++ arg :: after) = parseArgv (before ++ after).
Proof.
  intros Hbad.
  assert (Hnone : match_arg arg = None).
  { destruct (match_arg arg) as [[k v]|] eqn:Ha; [|done].
    apply match_arg_Some in Ha as (-> & _ & _ & _).
    destruct Hbad as [H|H].
    - by rewrite starts_with_app in H.
    - destruct H. apply elem_of_app. right. apply elem_of_app. right. left. }
  unfold parseArgv. rewrite !fold_left_app. simpl. by rewrite Hnone.
Qed.

Lemma parseArgv_skips_witness :
  parseArgv [js "--host=h"; js "-y"; js "--user=u"] =
  parseArgv [js "--host=h"; js "--user=u"].
Proof.
  apply (parseArgv_skips [js "--host=h"] [js "--user=u"] (js "-y")).
  left. reflexivity.
Defined.

(** X3. [parseArgv]: every entry of the configuration comes from an
    argument of exactly the form [--k=v]; its name is not empty and holds
    no equals sign, and its value holds no line terminator. *)
Theorem parseArgv_entries (args : list jsstring) (k v : jsstring) :
  parseArgv args !! k = Some v →
  js "--" ++ k ++ (61 :: v) ∈ args ∧
  k ≠ [] ∧ (61 ∉ k) ∧
  forallb (λ c, negb (is_line_terminator c)) v = true.
Proof.
  induction args as [|a args IH] using rev_ind.
  - unfold parseArgv. simpl. by rewrite lookup_empty.
  - rewrite parseArgv_snoc.
    destruct (match_arg a) as [[k' v']|] eqn:Ha.
    + unfold assign. case_bool_decide as Hproto.
      { intros H. destruct (IH H) as (H0 & H1). split; [|done].
        apply elem_of_app. by left. }
      destruct (decide (k' = k)) as [->|Hne].
      * rewrite lookup_insert_eq. intros [= ->].
        apply match_arg_Some in Ha as (-> & H1 & H2 & H3).
        split; [|done]. apply elem_of_app. right. left.
      * rewrite lookup_insert_ne by done. intros H.
        destruct (IH H) as (H0 & H1). split; [|done].
        apply elem_of_app. by left.
    + intros H. destruct (IH H) as (H0 & H1). split; [|done].
      apply elem_of_app. by left.
Qed.

Lemma parseArgv_entries_witness :
  js "--host=h" ∈ [js "--host=h"; js "-y"] ∧
  js "host" ≠ [] ∧ (61 ∉ js "host") ∧
  forallb (λ c, negb (is_line_terminator c)) (js "h") = true.
Proof.
  apply (parseArgv_entries [js "--host=h"; js "-y"] (js "host") (js "h")).
  reflexivity.
Defined.

(** ** The port option *)

Lemma decimal_digit_cases (c : N) :
  is_decimal_digit c = true →
  c = 48 ∨ c = 49 ∨ c = 50 ∨ c = 51 ∨ c = 52 ∨
  c = 53 ∨ c = 54 ∨ c = 55 ∨ c = 56 ∨ c = 57.
Proof.
  unfold is_decimal_digit. intros [H1 H2]%andb_prop.
  apply N.leb_le in H1, H2. lia.
Qed.

Lemma skip_digits_nil (s : jsstring) :
  skip_digits s = [] ↔ Forall (λ c, is_decimal_digit c = true) s.
Proof.
  induction s as [|c s IH]; simpl.
  - split; [constructor | done].
  - destruct (is_decimal_digit c) eqn:Hc.
    + rewrite IH. split; intros H.
      * by constructor.
      * by inversion H.
    + split; [done|]. intros H. inversion H; congruence.
Qed.

Lemma all_digits1_spec (s : jsstring) :
  all_digits1 s = true ↔
  s ≠ [] ∧ Forall (λ c, is_decimal_digit c = true) s.
Proof.
  destruct s as [|c r]; simpl.
  - split; [done|]. by intros [H _].
  - rewrite andb_true_iff, bool_decide_eq_true, skip_digits_nil. split.
    + intros [H1 H2]. split; [done|]. by constructor.
    + intros [_ H]. by inversion H.
Qed.

Lemma trimStart_id (s : jsstring) :
  Forall (λ c, is_trimmed_char c = false) s → trimStart s = s.
Proof. destruct 1 as [|c s Hc _]; simpl; [done|]. by rewrite Hc. Qed.

Lemma trim_id (s : jsstring) :
  Forall (λ c, is_trimmed_char c = false) s → trim s = s.
Proof.
  intros H. unfold trim, trimEnd. rewrite (trimStart_id s H).
  rewrite trimStart_id; [apply reverse_involutive|].
  by apply Forall_reverse.
Qed.

Lemma digits_not_trimmed (s : jsstring) :
  Forall (λ c, is_decimal_digit c = true) s →
  Forall (λ c, is_trimmed_char c = false) s.
Proof.
  intros H. eapply Forall_impl; [exact H|]. intros c Hc. simpl.
  destruct (decimal_digit_cases c Hc) as [->|[->|[->|[->|[->|[->|[->|[->|[->| ->]]]]]]]]];
    reflexivity.
Qed.

Lemma parse_radix_digits (c : N) (r : jsstring) :
  is_decimal_digit c = true →
  parse_radix 10 (c :: r) = Some (parse_digits 10 0 (c :: r)).
Proof.
  intros Hc. unfold parse_radix.
  by destruct (decimal_digit_cases c Hc)
    as [->|[->|[->|[->|[->|[->|[->|[->|[->| ->]]]]]]]]].
Qed.

(** A string of decimal digits is a numeric literal for [Number], and
    [parseInt] reads it in base ten. *)
Lemma digits_numeric (p : jsstring) :
  all_digits1 p = true →
  Number_isNaN p = false ∧ parseInt p = to_number 1 (parse_digits 10 0 p).
Proof.
  intros Hp. apply all_digits1_spec in Hp as [Hne Hall].
  pose proof (digits_not_trimmed p Hall) as Hnt.
  destruct p as [|c r]; [done|].
  inversion Hall as [|? ? Hc Hr]; subst.
  apply skip_digits_nil in Hr as Hskip.
  split.
  - unfold Number_isNaN. rewrite (trim_id _ Hnt).
    assert (str_decimal (c :: r) = true) as ->; [|done].
    destruct (decimal_digit_cases c Hc)
      as [->|[->|[->|[->|[->|[->|[->|[->|[->| ->]]]]]]]]];
      unfold str_decimal, unsigned_decimal; cbn;
      rewrite Hskip; apply orb_true_r.
  - assert (Hshape : parseInt (c :: r) =
                     match parse_radix 10 (c :: r) with
                     | Some n => to_number 1 n
                     | None => NaN
                     end).
    { unfold parseInt. rewrite (trimStart_id _ Hnt).
      destruct r as [|d r'].
      - by destruct (decimal_digit_cases c Hc)
          as [->|[->|[->|[->|[->|[->|[->|[->|[->| ->]]]]]]]]].
      - inversion Hr as [|? ? Hd _]; subst.
        destruct (decimal_digit_cases c Hc)
          as [->|[->|[->|[->|[->|[->|[->|[->|[->| ->]]]]]]]]];
        destruct (decimal_digit_cases d Hd)
          as [->|[->|[->|[->|[->|[->|[->|[->|[->| ->]]]]]]]]];
        reflexivity. }
    by rewrite Hshape, (parse_radix_digits c r Hc).
Qed.

(** Below 2^53 every non-negative integer is a number value as it is. *)
Lemma to_number_exact (n : Z) :
  (0 ≤ n < 2 ^ 53)%Z → to_number 1 n = finite n.
Proof.
  intros [H0 H53]. unfold to_number, round_to_double.
  rewrite (proj2 (Z.ltb_lt _ _) H53).
  assert (2 ^ 53 < 2 ^ 1024)%Z by (apply Z.pow_lt_mono_r; lia).
  rewrite (proj2 (Z.leb_gt _ _)) by lia.
  destruct (Z.eqb_spec n 0) as [->|Hn]; [done|].
  simpl. by rewrite Z.mul_1_l.
Qed.

Lemma parse_digits_nonneg (s : jsstring) (acc : Z) :
  (0 ≤ acc)%Z → (0 ≤ parse_digits 10 acc s)%Z.
Proof.
  revert acc. induction s as [|c s IH]; intros acc Hacc; simpl; [done|].
  unfold radix_digit, digit_value.
  repeat case_match; simplify_eq; try done; apply IH; lia.
Qed.

(** X4. A port written in decimal digits whose base-ten value is below
    2^53 (so that a number holds it exactly) passes the port check of
    [validateConfig] (with host and user present, validation succeeds),
    and [PORT] is that value, a non-negative integer; leading zeros do
    not switch to another radix. *)
Theorem decimal_port_accepted (config : gmap jsstring jsstring) (p : jsstring) :
  truthy_opt (config !! js "host") = true →
  truthy_opt (config !! js "user") = true →
  config !! js "port" = Some p →
  all_digits1 p = true →
  (parse_digits 10 0 p < 2 ^ 53)%Z →
  validateConfig config = None ∧
  PORT config = finite (parse_digits 10 0 p) ∧
  (0 ≤ parse_digits 10 0 p)%Z.
Proof.
  intros Hh Hu Hp Hd Hsmall. destruct (digits_numeric p Hd) as [Hnan Hint].
  assert (Ht : truthy p = true).
  { apply all_digits1_spec in Hd as [Hne _]. by destruct p. }
  assert (Hpos : (0 ≤ parse_digits 10 0 p)%Z) by by apply parse_digits_nonneg.
  split; [|split; [|done]].
  - unfold validateConfig, config_errors. by rewrite Hh, Hu, Hp, Ht, Hnan.
  - unfold PORT. rewrite Hp, Ht, Hint. by apply to_number_exact.
Qed.

Lemma decimal_port_accepted_witness :
  PORT (parseArgv [js "--host=h"; js "--user=u"; js "--port=0022"])
  = finite 22.
Proof.
  apply (decimal_port_accepted
           (parseArgv [js "--host=h"; js "--user=u"; js "--port=0022"])
           (js "0022")); reflexivity.
Defined.

(** Above 2^53 the port is the nearest double: an odd digit string just
    beyond it loses its last unit, and 400 nines are Infinity. *)
Example large_ports_are_rounded :
  parseInt (js "9007199254740993") = finite 9007199254740992 ∧
  parseInt (js "9007199254740995") = finite 9007199254740996 ∧
  parseInt (js "-0") = negative_zero ∧
  parseInt (js "0x1F") = finite 31 ∧
  parseInt (repeat 57 400) = infinity false.
Proof. vm_compute. done. Qed.

(** X5. The port check and the port value disagree on a port made only
    of white space: [Number] reads it as 0, so [validateConfig] accepts
    it (with host and user present), while [parseInt] finds no digits, so
    [PORT] is NaN. *)
Theorem blank_port_is_NaN (config : gmap jsstring jsstring) (p : jsstring) :
  truthy_opt (config !! js "host") = true →
  truthy_opt (config !! js "user") = true →
  config !! js "port" = Some p →
  p ≠ [] →
  Forall (λ c, is_trimmed_char c = true) p →
  validateConfig config = None ∧ PORT config = NaN.
Proof.
  intros Hh Hu Hp Hne Hblank.
  assert (Ht : truthy p = true) by by destruct p.
  split.
  - unfold validateConfig, config_errors. rewrite Hh, Hu, Hp, Ht.
    unfold Number_isNaN. by rewrite (proj2 (trim_nil p) Hblank).
  - unfold PORT. rewrite Hp, Ht. unfold parseInt.
    by rewrite (proj2 (trimStart_nil p) Hblank).
Qed.

Lemma blank_port_is_NaN_witness :
  validateConfig (parseArgv [js "--host=h"; js "--user=u"; js "--port= "])
    = None ∧
  PORT (parseArgv [js "--host=h"; js "--user=u"; js "--port= "]) = NaN.
Proof.
  apply (blank_port_is_NaN
           (parseArgv [js "--host=h"; js "--user=u"; js "--port= "])
           (js " ")); try reflexivity; [done|].
  repeat constructor.
Defined.

(** ** The connection: invariants over every event sequence *)

Ltac step_cases s ev :=
  destruct s as [?p ?l ?ph];
  destruct ev as [|?|[?|]| |?| |?|[?|?]|[?|]|?|?|? ?].

Lemma sftp_step_settled req s ev :
  promise s ≠ pending → promise (sftp_step req s ev) = promise s.
Proof.
  intros Hs. step_cases s ev; destruct ph; try destruct req;
    simpl in *; by destruct p.
Qed.

Lemma ssh_step_settled toString command s ev :
  promise s ≠ pending →
  promise (ssh_step toString command s ev) = promise s.
Proof.
  intros Hs. step_cases s ev; destruct ph as [| |out errtext|];
    simpl in *; try (destruct (truthy errtext)); by destruct p.
Qed.

Lemma sftp_fold_settled req (events : list Event) s :
  promise s ≠ pending →
  promise (fold_left (sftp_step req) events s) = promise s.
Proof.
  revert s. induction events as [|ev events IH]; intros s Hs; simpl; [done|].
  rewrite IH; rewrite sftp_step_settled; done.
Qed.

Lemma ssh_fold_settled toString command (events : list Event) s :
  promise s ≠ pending →
  promise (fold_left (ssh_step toString command) events s) = promise s.
Proof.
  revert s. induction events as [|ev events IH]; intros s Hs; simpl; [done|].
  rewrite IH; rewrite ssh_step_settled; done.
Qed.

(** X6. The first settlement is final: once the promise of
    [execSftpCommand] or [execSshCommand] is fulfilled or rejected, no
    later event on the connection changes it (a connection error after a
    completed operation, or a completion after an error, is ignored). *)
Theorem first_settlement_is_final (toString : Buffer → jsstring)
    (cfg : SshConfig) (req : SftpRequest) (command : jsstring)
    (events later : list Event) :
  (promise (execSftpCommand cfg req events) ≠ pending →
   promise (execSftpCommand cfg req (events ++ later)) =
   promise (execSftpCommand cfg req events)) ∧
  (promise (execSshCommand toString cfg command events) ≠ pending →
   promise (execSshCommand toString cfg command (events ++ later)) =
   promise (execSshCommand toString cfg command events)).
Proof.
  unfold execSftpCommand, execSshCommand. rewrite !fold_left_app.
  split; intros H; [by apply sftp_fold_settled|by apply ssh_fold_settled].
Qed.

Lemma sftp_fold_not_ready req cfg p (events : list Event) :
  ev_ready ∉ events →
  is_fulfilled p = false →
  let s := fold_left (sftp_step req) events
             (mkConn p [conn_connect cfg] sftp_connecting) in
  log s = [conn_connect cfg] ∧ phase s = sftp_connecting ∧
  is_fulfilled (promise s) = false.
Proof.
  revert p. induction events as [|ev events IH]; intros p Hno Hp; simpl; [done|].
  apply not_elem_of_cons in Hno as [Hne Hno].
  destruct ev as [|?|[?|]| |?| |?|[?|?]|[?|]|?|?|? ?]; try done;
    try (by apply IH).
  apply IH; [done|]. by destruct p.
Qed.

Lemma ssh_fold_not_ready toString command cfg p (events : list Event) :
  ev_ready ∉ events →
  is_fulfilled p = false →
  let s := fold_left (ssh_step toString command) events
             (mkConn p [conn_connect cfg] ssh_connecting) in
  log s = [conn_connect cfg] ∧ phase s = ssh_connecting ∧
  is_fulfilled (promise s) = false.
Proof.
  revert p. induction events as [|ev events IH]; intros p Hno Hp; simpl; [done|].
  apply not_elem_of_cons in Hno as [Hne Hno].
  destruct ev as [|?|[?|]| |?| |?|[?|?]|[?|]|?|?|? ?]; try done;
    try (by apply IH).
  apply IH; [done|]. by destruct p.
Qed.

(** X7. Nothing is requested before the connection is ready: as long as
    no 'ready' event has arrived, whatever else arrives, the only call
    made is the [conn.connect] (no sftp subsystem, no command, no
    [conn.end()]) and the promise is not fulfilled. *)
Theorem nothing_before_ready (toString : Buffer → jsstring)
    (cfg : SshConfig) (req : SftpRequest) (command : jsstring)
    (events : list Event) :
  ev_ready ∉ events →
  (log (execSftpCommand cfg req events) = [conn_connect cfg] ∧
   is_fulfilled (promise (execSftpCommand cfg req events)) = false) ∧
  (log (execSshCommand toString cfg command events) = [conn_connect cfg] ∧
   is_fulfilled (promise (execSshCommand toString cfg command events)) = false).
Proof.
  intros Hno. split.
  - by destruct (sftp_fold_not_ready req cfg pending events Hno eq_refl)
      as (H1 & _ & H2).
  - by destruct (ssh_fold_not_ready toString command cfg pending events
                   Hno eq_refl) as (H1 & _ & H2).
Qed.

Lemma nothing_before_ready_witness :
  log (execSshCommand latin1 (mkSshConfig None (finite 22) None None None)
         (js "ls")
         [ev_exec None; ev_stdout_data []; ev_stream_close code_null None])
  = [conn_connect (mkSshConfig None (finite 22) None None None)].
Proof.
  apply (nothing_before_ready latin1
           (mkSshConfig None (finite 22) None None None) (req_list (js "/"))
           (js "ls")
           [ev_exec None; ev_stdout_data []; ev_stream_close code_null None]).
  intros H. repeat (apply elem_of_cons in H as [H|H]; [done|]).
  by apply elem_of_nil in H.
Defined.

Ltac in_list :=
  repeat first [apply list_elem_of_here | apply list_elem_of_further].

(** What one callback adds to the log. *)
Lemma sftp_step_extra req s ev :
  ∃ extra, log (sftp_step req s ev) = log s ++ extra ∧
    (extra = [] ∨ extra = [conn_sftp] ∨ extra = [conn_end]
     ∨ extra = request_calls req).
Proof.
  destruct s as [p l ph].
  destruct ev as [|?|[?|]| |?| |?|[?|?]|[?|]|?|?|? ?],
           ph as [| |?|?| |];
    try (exists []; split; [by rewrite app_nil_r|by left]);
    try (destruct req); cbn; rewrite <- ?app_assoc;
    eexists; (split; [reflexivity|]);
    first [ left; reflexivity
          | right; left; reflexivity
          | right; right; left; reflexivity
          | right; right; right; reflexivity ].
Qed.

Lemma ssh_step_extra toString command s ev :
  ∃ extra, log (ssh_step toString command s ev) = log s ++ extra ∧
    (extra = [] ∨ extra = [conn_exec command] ∨ extra = [conn_end]).
Proof.
  destruct s as [p l ph].
  destruct ev as [|?|[?|]| |?| |?|[?|?]|[?|]|?|?|? ?],
           ph as [| |out errtext|];
    try (exists []; split; [by rewrite app_nil_r|by left]);
    cbn; try (destruct (truthy errtext)); cbn;
    eexists; (split; [reflexivity|]);
    first [ left; reflexivity
          | right; left; reflexivity
          | right; right; reflexivity ].
Qed.

Lemma sftp_step_calls cfg req s ev :
  Forall (λ a, a ∈ [conn_connect cfg; conn_sftp; conn_end]
               ∨ a ∈ request_calls req) (log s) →
  Forall (λ a, a ∈ [conn_connect cfg; conn_sftp; conn_end]
               ∨ a ∈ request_calls req) (log (sftp_step req s ev)).
Proof.
  intros Hs. destruct (sftp_step_extra req s ev) as (extra & -> & Hextra).
  apply Forall_app. split; [done|].
  destruct Hextra as [->|[->|[->| ->]]].
  - constructor.
  - constructor; [left; in_list|constructor].
  - constructor; [left; in_list|constructor].
  - apply Forall_forall. intros a Ha. by right.
Qed.

Lemma ssh_step_calls toString cfg command s ev :
  Forall (λ a, a ∈ [conn_connect cfg; conn_exec command; conn_end]) (log s) →
  Forall (λ a, a ∈ [conn_connect cfg; conn_exec command; conn_end])
    (log (ssh_step toString command s ev)).
Proof.
  intros Hs.
  destruct (ssh_step_extra toString command s ev) as (extra & -> & Hextra).
  apply Forall_app. split; [done|].
  destruct Hextra as [->|[->| ->]].
  - constructor.
  - constructor; [in_list|constructor].
  - constructor; [in_list|constructor].
Qed.

(** X8. What [execSshCommand] does on a connection, on every event
    sequence: it connects with the given configuration, executes the
    command string exactly as given (no trimming, no escaping) and ends
    the connection; it makes no other call. *)
Theorem execSshCommand_calls (toString : Buffer → jsstring) (cfg : SshConfig)
    (command : jsstring) (events : list Event) (a : Action) :
  a ∈ log (execSshCommand toString cfg command events) →
  a = conn_connect cfg ∨ a = conn_exec command ∨ a = conn_end.
Proof.
  assert (H : Forall (λ a, a ∈ [conn_connect cfg; conn_exec command; conn_end])
                (log (execSshCommand toString cfg command events))).
  { unfold execSshCommand.
    assert (H0 : Forall (λ a, a ∈ [conn_connect cfg; conn_exec command; conn_end])
                   (log (mkConn pending [conn_connect cfg] ssh_connecting))).
    { constructor; [in_list|constructor]. }
    revert H0. generalize (mkConn pending [conn_connect cfg] ssh_connecting).
    induction events as [|ev events IH]; intros s Hs; simpl; [done|].
    apply IH. by apply ssh_step_calls. }
  intros Hin. apply (proj1 (Forall_forall _ _) H) in Hin.
  repeat (apply elem_of_cons in Hin as [Hin|Hin]; [auto|]).
  by apply elem_of_nil in Hin.
Qed.

Lemma execSshCommand_calls_witness :
  conn_exec (js " ls ") = conn_connect (mkSshConfig None NaN None None None) ∨
  conn_exec (js " ls ") = conn_exec (js " ls ") ∨
  conn_exec (js " ls ") = conn_end.
Proof.
  apply (execSshCommand_calls latin1 (mkSshConfig None NaN None None None)
           (js " ls ") [ev_ready]).
  vm_compute. right. left.
Defined.

(** X9. What [execSftpCommand] does on a connection, on every event
    sequence: it connects, opens the sftp subsystem, makes the calls of
    the one operation requested, on the requested path (a write stream for
    an upload, a read stream for a download, a [readdir] for a listing,
    nothing for an unknown action) and ends the connection; it makes no
    other call. *)
Theorem execSftpCommand_calls (cfg : SshConfig) (req : SftpRequest)
    (events : list Event) (a : Action) :
  a ∈ log (execSftpCommand cfg req events) →
  a = conn_connect cfg ∨ a = conn_sftp ∨ a = conn_end ∨ a ∈ request_calls req.
Proof.
  assert (H : Forall (λ a, a ∈ [conn_connect cfg; conn_sftp; conn_end]
                           ∨ a ∈ request_calls req)
                (log (execSftpCommand cfg req events))).
  { unfold execSftpCommand.
    assert (H0 : Forall (λ a, a ∈ [conn_connect cfg; conn_sftp; conn_end]
                              ∨ a ∈ request_calls req)
                   (log (mkConn pending [conn_connect cfg] sftp_connecting))).
    { constructor; [left; in_list|constructor]. }
    revert H0. generalize (mkConn pending [conn_connect cfg] sftp_connecting).
    induction events as [|ev events IH]; intros s Hs; simpl; [done|].
    apply IH. by apply sftp_step_calls. }
  intros Hin. apply (proj1 (Forall_forall _ _) H) in Hin.
  destruct Hin as [Hin|Hin]; [|auto].
  repeat (apply elem_of_cons in Hin as [Hin|Hin]; [auto|]).
  by apply elem_of_nil in Hin.
Qed.

Lemma execSftpCommand_calls_witness :
  sftp_createReadStream (js "/r")
    = conn_connect (mkSshConfig None NaN None None None) ∨
  sftp_createReadStream (js "/r") = conn_sftp ∨
  sftp_createReadStream (js "/r") = conn_end ∨
  sftp_createReadStream (js "/r") ∈ request_calls (req_download (js "/r")).
Proof.
  apply (execSftpCommand_calls (mkSshConfig None NaN None None None)
           (req_download (js "/r")) [ev_ready; ev_sftp None]).
  vm_compute. do 2 right. left.
Defined.

(** ** Tool handlers: what they throw *)

Lemma sftp_step_rejects req s ev :
  rejects_internal (promise s) → rejects_internal (promise (sftp_step req s ev)).
Proof.
  intros Hs. step_cases s ev; destruct ph; try destruct req;
    simpl in *; by destruct p.
Qed.

Lemma ssh_step_rejects toString command s ev :
  rejects_internal (promise s) →
  rejects_internal (promise (ssh_step toString command s ev)).
Proof.
  intros Hs. step_cases s ev; destruct ph as [| |out errtext|];
    simpl in *; try (destruct (truthy errtext)); by destruct p.
Qed.

Lemma execSftpCommand_rejects cfg req events :
  rejects_internal (promise (execSftpCommand cfg req events)).
Proof.
  unfold execSftpCommand.
  assert (H0 : rejects_internal
                 (promise (mkConn pending [conn_connect cfg] sftp_connecting)))
    by done.
  revert H0. generalize (mkConn pending [conn_connect cfg] sftp_connecting).
  induction events as [|ev events IH]; intros s Hs; simpl; [done|].
  apply IH. by apply sftp_step_rejects.
Qed.

Lemma execSshCommand_rejects toString cfg command events :
  rejects_internal (promise (execSshCommand toString cfg command events)).
Proof.
  unfold execSshCommand.
  assert (H0 : rejects_internal
                 (promise (mkConn pending [conn_connect cfg] ssh_connecting)))
    by done.
  revert H0. generalize (mkConn pending [conn_connect cfg] ssh_connecting).
  induction events as [|ev events IH]; intros s Hs; simpl; [done|].
  apply IH. by apply ssh_step_rejects.
Qed.

Lemma throws_ret P {A} (a : A) : throws_only P (ret a).
Proof. by intros w t w' [=]. Qed.

Lemma throws_throw (P : Thrown → Prop) {A} t : P t → throws_only P (@throw A t).
Proof. by intros Ht w t' w' [= <- <-]. Qed.

Lemma throws_bind P {A B} (m : M A) (k : A → M B) :
  throws_only P m → (∀ a, throws_only P (k a)) → throws_only P (bind m k).
Proof.
  intros Hm Hk w t w'. unfold bind.
  destruct (m w) as [[a|t1|] w1] eqn:Hmw; [apply Hk| |done].
  intros [= <- <-]. by apply (Hm _ _ _ Hmw).
Qed.

Lemma throws_readFile path : throws_only plain_or_internal (readFile path).
Proof.
  intros w t w'. unfold readFile.
  by destruct (files w !! path) as [[d| |? ?]|]; intros [= <- <-].
Qed.

Lemma throws_writeFile path data :
  throws_only plain_or_internal (writeFile path data).
Proof.
  intros w t w'.
  by destruct (writeFile_cases path data w) as [[_ ->]|[err ->]];
    intros [= <- <-].
Qed.

Lemma throws_await {P} (c : Conn P) :
  rejects_internal (promise c) → throws_only plain_or_internal (await_conn c).
Proof.
  intros Hc w t w'. unfold await_conn.
  by destruct (promise c); intros [= <- <-].
Qed.

Lemma throws_build toString argvConfig :
  throws_only plain_or_internal (build_sshConfig toString argvConfig).
Proof.
  intros w t w' H.
  destruct (build_sshConfig_spec _ _ _ _ _ H) as (_ & _ & Ht). by destruct t.
Qed.

(** The [catch] block of the handlers turns whatever it receives into an
    [InternalError]. *)
Lemma throws_catch {A} (m : M A) prefix :
  throws_only plain_or_internal m →
  throws_only internal_error (try_catch m (rethrow prefix)).
Proof.
  intros Hm w t w'. unfold try_catch.
  destruct (m w) as [[a|t1|] w1] eqn:Hmw; [done| |done].
  pose proof (Hm _ _ _ Hmw) as Ht1.
  destruct t1 as [[c text]|e]; simpl in *; intros [= <- <-].
  - subst c. by eexists.
  - by eexists.
Qed.

(** X10. Whatever goes wrong in a tool call (unreadable local file or
    key file, connection, subsystem, listing or command error, standard
    error output, a blank command, a failed local write), the tool throws
    an [McpError] whose code is [ErrorCode.InternalError]; it never throws
    anything else. *)
Theorem tools_throw_internal_errors (toString : Buffer → jsstring)
    (argvConfig : gmap jsstring jsstring) (call : ToolCall)
    (events : list Event) (w : World) (t : Thrown) :
  (run_tool toString argvConfig call events w).1 = throws t →
  ∃ text, t = thrown_mcp (mkMcpError InternalError text).
Proof.
  intros Hrun.
  destruct (run_tool toString argvConfig call events w) as [r w'] eqn:Hr.
  simpl in Hrun. subst r.
  assert (H : throws_only internal_error
                (run_tool toString argvConfig call events));
    [|exact (H _ _ _ Hr)].
  destruct call as [localPath remotePath|remotePath localPath|remotePath|command];
    simpl.
  - apply throws_catch.
    apply throws_bind; [apply throws_readFile|]. intros fileData.
    apply throws_bind; [apply throws_build|]. intros cfg.
    apply throws_bind; [|intros; apply throws_ret].
    apply throws_await, execSftpCommand_rejects.
  - apply throws_catch.
    apply throws_bind; [apply throws_build|]. intros cfg.
    apply throws_bind; [apply throws_await, execSftpCommand_rejects|].
    intros result.
    apply throws_bind; [|intros; apply throws_ret].
    destruct result; [by apply throws_throw|apply throws_writeFile].
  - apply throws_catch.
    apply throws_bind; [apply throws_build|]. intros cfg.
    apply throws_bind; [apply throws_await, execSftpCommand_rejects|].
    intros [text|data]; [by apply throws_throw|apply throws_ret].
  - unfold exec. destruct (negb (truthy (trim command))).
    + apply throws_throw. by eexists.
    + apply throws_catch.
      apply throws_bind; [apply throws_build|]. intros cfg.
      apply throws_await, execSshCommand_rejects.
Qed.

Lemma tools_throw_internal_errors_witness :
  ∃ text,
    thrown_mcp (mkMcpError InternalError
                  (js "List failed: ENOENT: no such file or directory, open '/id'"))
    = thrown_mcp (mkMcpError InternalError text).
Proof.
  apply (tools_throw_internal_errors latin1 (<[js "key" := js "/id"]> ∅)
           (call_sftp_list (js "/")) [ev_ready] (mkWorld ∅ [])).
  reflexivity.
Defined.

(** ** Tool handlers: the list tool *)

Lemma list_step_no_buffer remotePath s ev :
  (∀ d, phase s ≠ sftp_downloading d) →
  (∀ d, promise s ≠ fulfilled (buffer d)) →
  (∀ d, phase (sftp_step (req_list remotePath) s ev) ≠ sftp_downloading d) ∧
  (∀ d, promise (sftp_step (req_list remotePath) s ev) ≠ fulfilled (buffer d)).
Proof.
  intros Hph Hp. step_cases s ev; destruct ph; simpl in *;
    try (by destruct (Hph data));
    (split; [done|]); try done; by destruct p.
Qed.

(** A listing is never fulfilled with a buffer. *)
Lemma list_never_buffer cfg remotePath events d :
  promise (execSftpCommand cfg (req_list remotePath) events)
  ≠ fulfilled (buffer d).
Proof.
  unfold execSftpCommand.
  assert (H : ∀ s, (∀ d, phase s ≠ sftp_downloading d) →
                   (∀ d, promise s ≠ fulfilled (buffer d)) →
                   ∀ d, promise (fold_left (sftp_step (req_list remotePath))
                                   events s) ≠ fulfilled (buffer d)).
  { induction events as [|ev events IH]; intros s Hph Hp; simpl; [done|].
    destruct (list_step_no_buffer remotePath s ev Hph Hp) as [H1 H2].
    by apply IH. }
  by apply H.
Qed.

(** X11. The sftp_list tool never returns a result: the value it awaits
    from [execSftpCommand] is the tool-result object, not the array of
    entries it calls [map] on, so a listing that succeeds remotely ends in
    a thrown error like every other outcome (or the call never settles). *)
Theorem sftp_list_never_returns (toString : Buffer → jsstring)
    (argvConfig : gmap jsstring jsstring) (remotePath : jsstring)
    (events : list Event) (w : World) (v : Value) :
  (sftp_list toString argvConfig remotePath events w).1 ≠ returns v.
Proof.
  unfold sftp_list, try_catch, bind.
  destruct (build_sshConfig toString argvConfig w) as [[cfg|t|] w1]; simpl.
  - unfold await_conn.
    pose proof (list_never_buffer cfg remotePath events) as Hnb.
    destruct (promise (execSftpCommand cfg (req_list remotePath) events))
      as [|[text|data]|e]; simpl; try done.
    by destruct (Hnb data).
  - by destruct t.
  - done.
Qed.

(** ** Tool handlers: local writes *)

Lemma nlw_ret {A} (a : A) : no_local_write (ret a).
Proof. by intros w r w' [= <- <-]. Qed.

Lemma nlw_throw {A} t : no_local_write (@throw A t).
Proof. by intros w r w' [= <- <-]. Qed.

Lemma nlw_bind {A B} (m : M A) (k : A → M B) :
  no_local_write m → (∀ a, no_local_write (k a)) → no_local_write (bind m k).
Proof.
  intros Hm Hk w r w'. unfold bind.
  destruct (m w) as [[a|t|] w1] eqn:Hmw.
  - intros Hka. destruct (Hm _ _ _ Hmw) as [H1 H2].
    destruct (Hk a _ _ _ Hka) as [H3 H4]. split; congruence.
  - intros [= <- <-]. by apply (Hm _ _ _ Hmw).
  - intros [= <- <-]. by apply (Hm _ _ _ Hmw).
Qed.

Lemma nlw_try_catch {A} (m : M A) prefix :
  no_local_write m → no_local_write (try_catch m (rethrow prefix)).
Proof.
  intros Hm w r w'. unfold try_catch.
  destruct (m w) as [[a|t|] w1] eqn:Hmw.
  - intros [= <- <-]. by apply (Hm _ _ _ Hmw).
  - destruct t; intros [= <- <-]; by apply (Hm _ _ _ Hmw).
  - intros [= <- <-]. by apply (Hm _ _ _ Hmw).
Qed.

Lemma nlw_readFile path : no_local_write (readFile path).
Proof.
  intros w r w'. unfold readFile.
  destruct (files w !! path) as [[d| |? ?]|]; intros [= <- <-]; simpl;
    (split; [done|]); rewrite write_count_app; unfold write_count at 2;
    simpl; lia.
Qed.

Lemma nlw_build toString argvConfig :
  no_local_write (build_sshConfig toString argvConfig).
Proof. intros w r w'. apply build_sshConfig_no_write. Qed.

Lemma nlw_await_sftp cfg req events :
  no_local_write (await_conn (execSftpCommand cfg req events)).
Proof.
  intros w r w'. unfold await_conn.
  pose proof (execSftpCommand_no_write cfg req events) as Hlog.
  destruct (promise (execSftpCommand cfg req events)); intros [= <- <-];
    simpl; rewrite write_count_app, Hlog; (split; [done|lia]).
Qed.

Lemma nlw_await_ssh toString cfg command events :
  no_local_write (await_conn (execSshCommand toString cfg command events)).
Proof.
  intros w r w'. unfold await_conn.
  destruct (execSshCommand_log toString cfg command events)
    as (extra & Hlog & Hextra).
  assert (Hw : write_count (log (execSshCommand toString cfg command events))
               = 0%nat).
  { rewrite Hlog.
    change (conn_connect cfg :: extra) with ([conn_connect cfg] ++ extra).
    by rewrite write_count_app, (on_connection_no_write _ Hextra). }
  destruct (promise (execSshCommand toString cfg command events));
    intros [= <- <-]; simpl; rewrite write_count_app, Hw; (split; [done|lia]).
Qed.

(** X12. Only the download tool touches the local files: an upload, a
    listing or a command execution leaves every local file as it was and
    never calls [fs.writeFile], on every event sequence and with every
    outcome. *)
Theorem only_download_writes (toString : Buffer → jsstring)
    (argvConfig : gmap jsstring jsstring) (call : ToolCall)
    (events : list Event) (w : World) :
  (∀ remotePath localPath, call ≠ call_sftp_download remotePath localPath) →
  files (run_tool toString argvConfig call events w).2 = files w ∧
  write_count (effects (run_tool toString argvConfig call events w).2)
    = write_count (effects w).
Proof.
  intros Hcall.
  destruct (run_tool toString argvConfig call events w) as [r w'] eqn:Hr.
  assert (H : no_local_write (run_tool toString argvConfig call events));
    [|exact (H _ _ _ Hr)].
  destruct call as [localPath remotePath|remotePath localPath|remotePath|command];
    simpl.
  - apply nlw_try_catch.
    apply nlw_bind; [apply nlw_readFile|]. intros fileData.
    apply nlw_bind; [apply nlw_build|]. intros cfg.
    apply nlw_bind; [apply nlw_await_sftp|intros; apply nlw_ret].
  - by destruct (Hcall remotePath localPath).
  - apply nlw_try_catch.
    apply nlw_bind; [apply nlw_build|]. intros cfg.
    apply nlw_bind; [apply nlw_await_sftp|].
    intros [text|data]; [apply nlw_throw|apply nlw_ret].
  - unfold exec. destruct (negb (truthy (trim command))); [apply nlw_throw|].
    apply nlw_try_catch.
    apply nlw_bind; [apply nlw_build|]. intros cfg. apply nlw_await_ssh.
Qed.

Lemma only_download_writes_witness :
  files (run_tool latin1 (<[js "password" := js "pw"]> ∅)
           (call_sftp_upload (js "/f") (js "/r"))
           [ev_ready; ev_sftp None; ev_write_close]
           (mkWorld {[ js "/f" := file [] ]} [])).2
  = {[ js "/f" := file [] ]}.
Proof.
  refine (proj1 (only_download_writes latin1 (<[js "password" := js "pw"]> ∅)
                   (call_sftp_upload (js "/f") (js "/r"))
                   [ev_ready; ev_sftp None; ev_write_close]
                   (mkWorld {[ js "/f" := file [] ]} []) _)).
  discriminate.
Defined.

(** ** Tool handlers: end to end *)

(** X13. A download that completes, end to end: when the credentials
    are built, the session becomes ready, the subsystem opens, chunks
    arrive and the stream ends, and the file at [localPath] can be
    written (the path is not empty, is not a directory and can be opened:
    its parent directory exists and the permissions allow it), the tool
    returns "File downloaded to <localPath>", the local file holds exactly
    the concatenated chunks, every other local file is unchanged, and the
    write comes after the connection was ended. *)
Theorem download_end_to_end (toString : Buffer → jsstring)
    (argvConfig : gmap jsstring jsstring) (remotePath localPath : jsstring)
    (chunks : list Buffer) (w w1 : World) (cfg : SshConfig) :
  build_sshConfig toString argvConfig w = (returns cfg, w1) →
  can_write w localPath →
  sftp_download toString argvConfig remotePath localPath
    ([ev_ready; ev_sftp None] ++ (ev_read_data <$> chunks) ++ [ev_read_end]) w
  = (returns (content_text (js "File downloaded to " ++ localPath)),
     mkWorld (<[localPath := file (concat chunks)]> (files w))
       (effects w1 ++
        [conn_connect cfg; conn_sftp; sftp_createReadStream remotePath;
         conn_end; fs_writeFile localPath (concat chunks)])).
Proof.
  intros Hb (Hne & Hdir & Hopen).
  destruct (build_sshConfig_spec _ _ _ _ _ Hb) as (Hf & _ & _).
  assert (Hc : execSftpCommand cfg (req_download remotePath)
                 ([ev_ready; ev_sftp None] ++ (ev_read_data <$> chunks)
                    ++ [ev_read_end]) =
               mkConn (fulfilled (buffer (concat chunks)))
                 [conn_connect cfg; conn_sftp;
                  sftp_createReadStream remotePath; conn_end]
                 (sftp_downloading (concat chunks))).
  { unfold execSftpCommand. rewrite app_assoc, fold_left_app, fold_left_app.
    simpl. unfold goto, call; simpl. by rewrite sftp_read_chunks. }
  unfold sftp_download.
  rewrite (try_catch_bind_returns _ _ _ _ _ _ Hb).
  unfold try_catch, bind, await_conn. rewrite Hc. simpl.
  unfold writeFile. destruct localPath as [|c localPath]; [done|].
  cbv beta iota zeta. cbn [files effects record]. rewrite Hf.
  destruct (files w !! _) as [[d| |code description]|] eqn:Hl;
    [|done|by destruct (Hopen code description)|];
    cbn [fst snd]; by rewrite <- app_assoc.
Qed.

Lemma download_end_to_end_witness :
  (sftp_download latin1 (<[js "password" := js "pw"]> ∅) (js "/r") (js "/l")
     ([ev_ready; ev_sftp None]
        ++ (ev_read_data <$> [list_byte_of_string "ab"; list_byte_of_string "c"])
        ++ [ev_read_end])
     (mkWorld ∅ [])).1
  = returns (content_text (js "File downloaded to /l")).
Proof.
  rewrite (download_end_to_end latin1 (<[js "password" := js "pw"]> ∅)
             (js "/r") (js "/l")
             [list_byte_of_string "ab"; list_byte_of_string "c"]
             (mkWorld ∅ []) (mkWorld ∅ [])
             (mkSshConfig None (finite 22) None (Some (js "pw")) None));
    [reflexivity|reflexivity|].
  repeat split; [done|done|]. intros code description. done.
Defined.

(** The same download into a directory that does not exist: the transfer
    is made and the connection ended, then the write fails and the tool
    throws; no file is created. *)
Example download_missing_parent :
  let w := mkWorld {[ js "/nodir/l" :=
                        denied (js "ENOENT") (js "no such file or directory") ]}
             [] in
  let r := sftp_download latin1 (<[js "password" := js "pw"]> ∅)
             (js "/r") (js "/nodir/l")
             [ev_ready; ev_sftp None;
              ev_read_data (list_byte_of_string "ab"); ev_read_end] w in
  r.1 = throws (thrown_mcp (mkMcpError InternalError
          (js "Download failed: ENOENT: no such file or directory, open '/nodir/l'"))) ∧
  files r.2 = files w ∧
  effects r.2 =
    [conn_connect (mkSshConfig None (finite 22) None (Some (js "pw")) None);
     conn_sftp; sftp_createReadStream (js "/r"); conn_end;
     fs_writeFile (js "/nodir/l") (list_byte_of_string "ab")].
Proof. vm_compute. done. Qed.

(** X14. An unreadable key file stops a tool before any connection:
    with no (non-empty) password configured and a key path that is not a
    readable file, a tool that got as far as building its configuration
    throws "<tool prefix><read error message>" as an [InternalError], the
    only new calls being its file reads; [conn.connect] is not called. *)
Theorem unreadable_key_stops_tool (toString : Buffer → jsstring)
    (argvConfig : gmap jsstring jsstring) (call : ToolCall)
    (events : list Event) (w : World) (k : jsstring) :
  truthy_opt (PASSWORD argvConfig) = false →
  KEY argvConfig = Some k → truthy k = true →
  (∀ data, files w !! k ≠ Some (file data)) →
  goes_on call w →
  ∃ err,
    readFile k w = (throws (thrown_error err), record (fs_readFile k) w) ∧
    run_tool toString argvConfig call events w =
      (throws (thrown_mcp (mkMcpError InternalError
                             (catch_prefix call ++ message err))),
       mkWorld (files w)
         (effects w ++ first_reads call ++ [fs_readFile k])).
Proof.
  intros Hp Hk Ht Hno Hgo.
  destruct (readFile_cases k w)
    as [(data & Hf & _)|(err & _ & Hmsg & Hread)]; [by destruct (Hno data)|].
  exists err. split; [done|].
  assert (Hbuild : ∀ w0, files w0 = files w →
            build_sshConfig toString argvConfig w0 =
            (throws (thrown_error err), record (fs_readFile k) w0)).
  { intros w0 Hw0. unfold build_sshConfig. rewrite Hp, Hk, Ht.
    unfold readFile_utf8, bind. unfold readFile in Hread |- *. rewrite Hw0.
    destruct (files w !! k) as [[d| |? ?]|]; [done| | |];
      injection Hread as <-; reflexivity. }
  assert (Hfin : ∀ prefix w0,
            rethrow (A:=Value) prefix (thrown_error err) w0 =
            (throws (thrown_mcp (mkMcpError InternalError
                                   (prefix ++ message err))), w0)).
  { intros prefix w0. unfold rethrow, throw, message_or_err. by rewrite Hmsg. }
  destruct call as [localPath remotePath|remotePath localPath|remotePath|command];
    cbn [run_tool catch_prefix first_reads goes_on] in *.
  - destruct Hgo as [data Hdata]. unfold sftp_upload.
    assert (Hr : readFile localPath w
                 = (returns data, record (fs_readFile localPath) w)).
    { unfold readFile. by rewrite Hdata. }
    rewrite (try_catch_bind_returns _ _ _ _ _ _ Hr).
    rewrite (try_catch_bind_throws _ _ _ _ _ _
               (Hbuild (record (fs_readFile localPath) w) eq_refl)).
    rewrite Hfin. unfold record; cbn [files effects].
    by rewrite <- app_assoc.
  - unfold sftp_download.
    rewrite (try_catch_bind_throws _ _ _ _ _ _ (Hbuild w eq_refl)).
    by rewrite Hfin.
  - unfold sftp_list.
    rewrite (try_catch_bind_throws _ _ _ _ _ _ (Hbuild w eq_refl)).
    by rewrite Hfin.
  - unfold exec. rewrite Hgo.
    rewrite (try_catch_bind_throws _ _ _ _ _ _ (Hbuild w eq_refl)).
    by rewrite Hfin.
Qed.

Lemma unreadable_key_stops_tool_witness :
  ∃ err,
    readFile (js "/id") (mkWorld ∅ [])
      = (throws (thrown_error err), record (fs_readFile (js "/id")) (mkWorld ∅ [])) ∧
    run_tool latin1 (<[js "key" := js "/id"]> ∅) (call_exec (js "ls"))
      [ev_ready] (mkWorld ∅ []) =
      (throws (thrown_mcp (mkMcpError InternalError
                             (catch_prefix (call_exec (js "ls")) ++ message err))),
       mkWorld ∅ ([] ++ first_reads (call_exec (js "ls")) ++ [fs_readFile (js "/id")])).
Proof.
  apply (unreadable_key_stops_tool latin1 (<[js "key" := js "/id"]> ∅)
           (call_exec (js "ls")) [ev_ready] (mkWorld ∅ []) (js "/id"));
    try reflexivity.
  intros data. simpl. by rewrite lookup_empty.
Defined.

(** X15. A command that completes without standard-error text, end to
    end: for a command that passes the check, with the credentials built,
    the exec tool returns the accumulated standard-output text unchanged,
    whatever the exit code; on the connection it has connected, executed
    the command and ended the connection, in that order. *)
Theorem exec_end_to_end (toString : Buffer → jsstring)
    (argvConfig : gmap jsstring jsstring) (command : jsstring)
    (os : list Output) (code : CodeValue) (signal : option jsstring)
    (w w1 : World) (cfg : SshConfig) :
  ¬ Forall (λ c, is_trimmed_char c = true) command →
  build_sshConfig toString argvConfig w = (returns cfg, w1) →
  stderr_text toString os = [] →
  exec toString argvConfig command
    ([ev_ready; ev_exec None] ++ (output_event <$> os)
       ++ [ev_stream_close code signal]) w
  = (returns (content_text (stdout_text toString os)),
     mkWorld (files w1)
       (effects w1 ++ [conn_connect cfg; conn_exec command; conn_end])).
Proof.
  intros Hcmd Hb Herr.
  rewrite (exec_tool_outcome _ _ _ _ _ _ _ (exec_command_accepted _ Hcmd) Hb).
  assert (Hc : execSshCommand toString cfg command
                 ([ev_ready; ev_exec None] ++ (output_event <$> os)
                    ++ [ev_stream_close code signal]) =
               mkConn (fulfilled (content_text (stdout_text toString os)))
                 [conn_connect cfg; conn_exec command; conn_end]
                 (ssh_streaming (stdout_text toString os) [])).
  { unfold execSshCommand. rewrite app_assoc, fold_left_app.
    fold (execSshCommand toString cfg command
            ([ev_ready; ev_exec None] ++ (output_event <$> os))).
    rewrite ssh_before_close. simpl. by rewrite Herr. }
  unfold await_conn. by rewrite Hc.
Qed.

Lemma exec_end_to_end_witness :
  (exec latin1 (<[js "password" := js "pw"]> ∅) (js "ls")
     ([ev_ready; ev_exec None]
        ++ (output_event <$> [on_stdout (list_byte_of_string "a");
                              on_stdout (list_byte_of_string "b")])
        ++ [ev_stream_close (code_number 1) None])
     (mkWorld ∅ [])).1
  = returns (content_text (js "ab")).
Proof.
  rewrite (exec_end_to_end latin1 (<[js "password" := js "pw"]> ∅) (js "ls")
             [on_stdout (list_byte_of_string "a");
              on_stdout (list_byte_of_string "b")]
             (code_number 1) None (mkWorld ∅ []) (mkWorld ∅ [])
             (mkSshConfig None (finite 22) None (Some (js "pw")) None));
    [reflexivity| |reflexivity|reflexivity].
  intros H. by inversion H.
Defined.

(** ** The connection: what settles the promise *)

Lemma sftp_step_fits req s ev :
  phase_fits req (phase s) = true →
  phase_fits req (phase (sftp_step req s ev)) = true.
Proof.
  intros Hs. step_cases s ev; destruct ph; try destruct req;
    simpl in *; done.
Qed.

Lemma sftp_step_unfulfilled req s ev :
  phase_fits req (phase s) = true →
  completes req ev = false →
  is_fulfilled (promise s) = false →
  is_fulfilled (promise (sftp_step req s ev)) = false.
Proof.
  intros Hs Hev Hp. step_cases s ev; destruct ph; try destruct req;
    simpl in *; try done; by destruct p.
Qed.

Lemma sftp_step_pending req s ev :
  phase_fits req (phase s) = true →
  completes req ev = false → fails req ev = false →
  promise s = pending →
  promise (sftp_step req s ev) = pending.
Proof.
  intros Hs Hc Hf Hp. step_cases s ev; destruct ph; try destruct req;
    simpl in *; done.
Qed.

Lemma ssh_step_pending toString command s ev :
  settles_exec ev = false →
  promise s = pending →
  promise (ssh_step toString command s ev) = pending.
Proof.
  intros Hev Hp. step_cases s ev; destruct ph as [| |out errtext|];
    simpl in *; done.
Qed.

(** X16. The promise of a transfer is fulfilled only by the completion
    event of the operation requested: the write stream's 'close' for an
    upload, the read stream's 'end' for a download, a successful
    [readdir] callback for a listing, and never for an unknown action;
    without that event, whatever else arrives, it is not fulfilled. *)
Theorem fulfilled_only_on_completion (cfg : SshConfig) (req : SftpRequest)
    (events : list Event) :
  Forall (λ ev, completes req ev = false) events →
  is_fulfilled (promise (execSftpCommand cfg req events)) = false.
Proof.
  unfold execSftpCommand.
  assert (H : ∀ s, phase_fits req (phase s) = true →
                   is_fulfilled (promise s) = false →
                   Forall (λ ev, completes req ev = false) events →
                   is_fulfilled (promise (fold_left (sftp_step req) events s))
                   = false).
  { induction events as [|ev events IH]; intros s Hph Hp Hall; simpl; [done|].
    inversion Hall as [|? ? Hev Hrest]; subst.
    apply IH; [by apply sftp_step_fits|by apply sftp_step_unfulfilled|done]. }
  intros Hall. by apply H.
Qed.

Lemma fulfilled_only_on_completion_witness :
  is_fulfilled
    (promise (execSftpCommand (mkSshConfig None NaN None None None)
                (req_upload [] (js "/r"))
                [ev_ready; ev_sftp None; ev_read_end; ev_readdir (inr [])]))
  = false.
Proof.
  apply (fulfilled_only_on_completion (mkSshConfig None NaN None None None)
           (req_upload [] (js "/r"))
           [ev_ready; ev_sftp None; ev_read_end; ev_readdir (inr [])]).
  repeat constructor.
Defined.

(** X17. No timeout and no handling of stream errors: as long as the
    connection delivers neither the completion event of the operation nor
    one of the failures the callbacks handle (connection error, failed
    subsystem, listing or exec callback), the promise stays pending
    whatever else arrives, for instance an 'error' of the transfer stream,
    and the tool call never settles. *)
Theorem pending_without_settling_event (toString : Buffer → jsstring)
    (cfg : SshConfig) (req : SftpRequest) (command : jsstring)
    (events : list Event) :
  (Forall (λ ev, completes req ev = false ∧ fails req ev = false) events →
   promise (execSftpCommand cfg req events) = pending) ∧
  (Forall (λ ev, settles_exec ev = false) events →
   promise (execSshCommand toString cfg command events) = pending).
Proof.
  split.
  - unfold execSftpCommand.
    assert (H : ∀ s, phase_fits req (phase s) = true →
                     promise s = pending →
                     Forall (λ ev, completes req ev = false
                                   ∧ fails req ev = false) events →
                     promise (fold_left (sftp_step req) events s) = pending).
    { induction events as [|ev events IH]; intros s Hph Hp Hall; simpl; [done|].
      inversion Hall as [|? ? [Hc Hf] Hrest]; subst.
      apply IH; [by apply sftp_step_fits|by apply sftp_step_pending|done]. }
    intros Hall. by apply H.
  - unfold execSshCommand.
    generalize (eq_refl : promise (mkConn pending [conn_connect cfg]
                                     ssh_connecting) = pending).
    generalize (mkConn pending [conn_connect cfg] ssh_connecting).
    induction events as [|ev events IH]; intros s Hp Hall; simpl; [done|].
    inversion Hall as [|? ? Hev Hrest]; subst.
    apply IH; [by apply ssh_step_pending|done].
Qed.

(** A download whose read stream fails never settles. *)
Example download_stream_error_hangs :
  (sftp_download latin1 (<[js "password" := js "pw"]> ∅) (js "/r") (js "/l")
     [ev_ready; ev_sftp None; ev_stream_error (mkError (js "Error") (js "No such file"))]
     (mkWorld ∅ [])).1 = never_settles.
Proof. reflexivity. Qed.

Lemma sftp_idle_stable req e l (rest : list Event) :
  fold_left (sftp_step req) rest (mkConn (rejected e) l sftp_idle) =
  mkConn (rejected e) l sftp_idle.
Proof.
  induction rest as [|ev rest IH]; simpl; [done|].
  destruct ev as [|?|[?|]| |?| |?|[?|?]|[?|]|?|?|? ?]; exact IH.
Qed.

Lemma ssh_idle_stable toString command e l (rest : list Event) :
  fold_left (ssh_step toString command) rest (mkConn (rejected e) l ssh_idle) =
  mkConn (rejected e) l ssh_idle.
Proof.
  induction rest as [|ev rest IH]; simpl; [done|].
  destruct ev as [|?|[?|]| |?| |?|[?|?]|[?|]|?|?|? ?]; exact IH.
Qed.

(** X18. A request that fails in its callback is over: after a failed
    sftp subsystem, an unknown action, a rejected listing or a failed
    exec callback, the promise is rejected with that error, the
    connection has been ended exactly once, the operation's stream calls
    were never made, and no later event changes any of this. *)
Theorem failed_request_is_final (toString : Buffer → jsstring)
    (cfg : SshConfig) (req : SftpRequest) (action remotePath command : jsstring)
    (err : JsError) (rest : list Event) :
  let failed text calls :=
    (rejected (mkMcpError InternalError text), conn_connect cfg :: calls) in
  outcome (execSftpCommand cfg req (ev_ready :: ev_sftp (Some err) :: rest))
    = failed (js "SFTP error: " ++ message err) [conn_sftp; conn_end] ∧
  outcome (execSftpCommand cfg (req_other action)
             (ev_ready :: ev_sftp None :: rest))
    = failed (js "Invalid SFTP action") [conn_sftp; conn_end] ∧
  outcome (execSftpCommand cfg (req_list remotePath)
             (ev_ready :: ev_sftp None :: ev_readdir (inl err) :: rest))
    = failed (js "List error: " ++ message err)
        [conn_sftp; sftp_readdir remotePath; conn_end] ∧
  outcome (execSshCommand toString cfg command
             (ev_ready :: ev_exec (Some err) :: rest))
    = failed (js "SSH exec error: " ++ message err)
        [conn_exec command; conn_end].
Proof.
  intros failed. subst failed. unfold outcome.
  unfold execSftpCommand, execSshCommand; simpl.
  unfold goto, call, do_reject; simpl.
  by rewrite !sftp_idle_stable, ssh_idle_stable.
Qed.

(** ** Tool handlers: one connection per call *)

Lemma cam_ret {A} (a : A) : connects_at_most 0 (ret a).
Proof. intros w r w' [= <- <-]. lia. Qed.

Lemma cam_throw {A} t : connects_at_most 0 (@throw A t).
Proof. intros w r w' [= <- <-]. lia. Qed.

Lemma cam_weaken {A} (m : M A) n n' :
  (n ≤ n')%nat → connects_at_most n m → connects_at_most n' m.
Proof. intros Hn Hm w r w' H. specialize (Hm _ _ _ H). lia. Qed.

Lemma cam_bind {A B} (m : M A) (k : A → M B) n1 n2 :
  connects_at_most n1 m → (∀ a, connects_at_most n2 (k a)) →
  connects_at_most (n1 + n2) (bind m k).
Proof.
  intros Hm Hk w r w'. unfold bind.
  destruct (m w) as [[a|t|] w1] eqn:Hmw.
  - intros Hka. specialize (Hm _ _ _ Hmw). specialize (Hk a _ _ _ Hka). lia.
  - intros [= <- <-]. specialize (Hm _ _ _ Hmw). lia.
  - intros [= <- <-]. specialize (Hm _ _ _ Hmw). lia.
Qed.

Lemma cam_try_catch {A} (m : M A) prefix n :
  connects_at_most n m → connects_at_most n (try_catch m (rethrow prefix)).
Proof.
  intros Hm w r w'. unfold try_catch.
  destruct (m w) as [[a|t|] w1] eqn:Hmw.
  - intros [= <- <-]. by apply (Hm _ _ _ Hmw).
  - destruct t; intros [= <- <-]; by apply (Hm _ _ _ Hmw).
  - intros [= <- <-]. by apply (Hm _ _ _ Hmw).
Qed.

Lemma cam_readFile path : connects_at_most 0 (readFile path).
Proof.
  intros w r w'. unfold readFile.
  destruct (files w !! path) as [[d| |? ?]|]; intros [= <- <-]; simpl;
    rewrite connect_count_app; unfold connect_count at 2; simpl; lia.
Qed.

Lemma cam_writeFile path data : connects_at_most 0 (writeFile path data).
Proof.
  intros w r w'.
  destruct (writeFile_cases path data w) as [[_ ->]|[err ->]];
    intros [= <- <-]; simpl;
    rewrite connect_count_app; unfold connect_count at 2; simpl; lia.
Qed.

Lemma cam_build toString argvConfig :
  connects_at_most 0 (build_sshConfig toString argvConfig).
Proof.
  intros w r w' H.
  destruct (build_sshConfig_spec _ _ _ _ _ H) as (_ & [->|(k & _ & ->)] & _);
    [lia|].
  rewrite connect_count_app. unfold connect_count at 2. simpl. lia.
Qed.

Lemma cam_await {P} (c : Conn P) :
  connect_count (log c) = 1%nat → connects_at_most 1 (await_conn c).
Proof.
  intros Hc w r w'. unfold await_conn.
  destruct (promise c); intros [= <- <-]; simpl;
    rewrite connect_count_app, Hc; lia.
Qed.

(** X19. One tool call opens at most one connection: whatever the
    events and the outcome, [conn.connect] is called at most once per
    call of any of the four tools (no retry, no second connection). *)
Theorem at_most_one_connection (toString : Buffer → jsstring)
    (argvConfig : gmap jsstring jsstring) (call : ToolCall)
    (events : list Event) (w : World) :
  (connect_count (effects (run_tool toString argvConfig call events w).2)
   ≤ connect_count (effects w) + 1)%nat.
Proof.
  destruct (run_tool toString argvConfig call events w) as [r w'] eqn:Hr.
  assert (H : connects_at_most 1 (run_tool toString argvConfig call events));
    [|exact (H _ _ _ Hr)].
  destruct call as [localPath remotePath|remotePath localPath|remotePath|command];
    simpl.
  - apply cam_try_catch.
    apply (cam_bind _ _ 0 1); [apply cam_readFile|]. intros fileData.
    apply (cam_bind _ _ 0 1); [apply cam_build|]. intros cfg.
    apply (cam_bind _ _ 1 0); [|intros; apply cam_ret].
    apply cam_await, execSftpCommand_connects_once.
  - apply cam_try_catch.
    apply (cam_bind _ _ 0 1); [apply cam_build|]. intros cfg.
    apply (cam_bind _ _ 1 0);
      [apply cam_await, execSftpCommand_connects_once|].
    intros result.
    apply (cam_bind _ _ 0 0); [|intros; apply cam_ret].
    destruct result; [apply cam_throw|apply cam_writeFile].
  - apply cam_try_catch.
    apply (cam_bind _ _ 0 1); [apply cam_build|]. intros cfg.
    apply (cam_bind _ _ 1 0);
      [apply cam_await, execSftpCommand_connects_once|].
    intros [text|data]; [apply cam_throw|apply cam_ret].
  - unfold exec. destruct (negb (truthy (trim command))).
    + apply (cam_weaken _ 0); [lia|apply cam_throw].
    + apply cam_try_catch.
      apply (cam_bind _ _ 0 1); [apply cam_build|]. intros cfg.
      apply cam_await, execSshCommand_connects_once.
Qed.

(** X20. An upload that completes, end to end: when the local file is
    read, the credentials are built, the session becomes ready, the
    subsystem opens and the write stream closes, the tool returns "File
    uploaded to <remotePath>"; on the connection it has written the whole
    content of the file in one write to a stream on [remotePath], ended
    the stream, and ended the connection after the stream closed; the
    local files are unchanged. *)
Theorem upload_end_to_end (toString : Buffer → jsstring)
    (argvConfig : gmap jsstring jsstring) (localPath remotePath : jsstring)
    (data : Buffer) (w w1 : World) (cfg : SshConfig) :
  files w !! localPath = Some (file data) →
  build_sshConfig toString argvConfig (record (fs_readFile localPath) w)
    = (returns cfg, w1) →
  sftp_upload toString argvConfig localPath remotePath
    [ev_ready; ev_sftp None; ev_write_close] w
  = (returns (content_text (js "File uploaded to " ++ remotePath)),
     mkWorld (files w)
       (effects w1 ++
        [conn_connect cfg; conn_sftp; sftp_createWriteStream remotePath;
         writeStream_write data; writeStream_end; conn_end])).
Proof.
  intros Hf Hb.
  destruct (build_sshConfig_spec _ _ _ _ _ Hb) as (Hfiles & _ & _).
  assert (Hr : readFile localPath w
               = (returns data, record (fs_readFile localPath) w)).
  { unfold readFile. by rewrite Hf. }
  unfold sftp_upload.
  rewrite (try_catch_bind_returns _ _ _ _ _ _ Hr).
  rewrite (try_catch_bind_returns _ _ _ _ _ _ Hb).
  unfold try_catch, bind, await_conn, ret. simpl. by rewrite Hfiles.
Qed.

Lemma upload_end_to_end_witness :
  (sftp_upload latin1 (<[js "password" := js "pw"]> ∅) (js "/f") (js "/r")
     [ev_ready; ev_sftp None; ev_write_close]
     (mkWorld {[ js "/f" := file (list_byte_of_string "data") ]} [])).1
  = returns (content_text (js "File uploaded to /r")).
Proof.
  rewrite (upload_end_to_end latin1 (<[js "password" := js "pw"]> ∅)
             (js "/f") (js "/r") (list_byte_of_string "data")
             (mkWorld {[ js "/f" := file (list_byte_of_string "data") ]} [])
             (mkWorld {[ js "/f" := file (list_byte_of_string "data") ]}
                [fs_readFile (js "/f")])
             (mkSshConfig None (finite 22) None (Some (js "pw")) None));
    reflexivity.
Defined.
